(** * clang-uml: a shallow embedding of the semantic model layer

    The development follows the C++ sources:
    - [common/clang_utils.cc]: the identity service ([to_id]), the parser of
      unexposed template parameters and its tokenizer;
    - [package_diagram/visitor/translation_unit_visitor.cc]: the traversal
      that harvests package dependencies;
    - [puml/sequence_diagram_generator.cc]: the PlantUML sequence emitter;
    - [cli/cli_handler.cc]: the [--user-data] merge into the Jinja context.

    Machine integers are [Z] with their wrap-around written out, strings are
    [string], output streams are strings threaded through the emitters, and
    code that can abort, throw or recurse without bound returns a sum type. *)

From Stdlib Require Import ZArith Ascii String List Bool Lia.
From stdpp Require Import base option list gmap strings.
Import ListNotations.

Local Open Scope string_scope.
Local Open Scope Z_scope.
Local Open Scope list_scope.

(** ** Part I. Definitions *)

(** *** Characters and strings ([<cctype>], [std::string], [util]) *)

Definition char_code (c : ascii) : nat := nat_of_ascii c.

(** [std::isspace] in the C locale. *)
Definition isspace (c : ascii) : bool :=
  let n := char_code c in
  ((9 <=? n) && (n <=? 13))%nat || (n =? 32)%nat.

(** [std::isalpha] in the C locale. *)
Definition isalpha (c : ascii) : bool :=
  let n := char_code c in
  ((65 <=? n) && (n <=? 90))%nat || ((97 <=? n) && (n <=? 122))%nat.

(** [std::isalnum] in the C locale. *)
Definition isalnum (c : ascii) : bool :=
  let n := char_code c in
  isalpha c || ((48 <=? n) && (n <=? 57))%nat.

Definition string_is_empty (s : string) : bool :=
  match s with EmptyString => true | String _ _ => false end.

(** [s += c] *)
Definition push_back (s : string) (c : ascii) : string :=
  s +:+ String c EmptyString.

Fixpoint string_forallb (p : ascii -> bool) (s : string) : bool :=
  match s with
  | EmptyString => true
  | String c rest => p c && string_forallb p rest
  end.

Fixpoint string_rev_onto (s acc : string) : string :=
  match s with
  | EmptyString => acc
  | String c rest => string_rev_onto rest (String c acc)
  end.

Definition string_rev (s : string) : string := string_rev_onto s EmptyString.

Fixpoint ltrim (s : string) : string :=
  match s with
  | EmptyString => EmptyString
  | String c rest => if isspace c then ltrim rest else s
  end.

(** Modelled from the spec: [util::trim] (util.cc is not under src) strips
    the white space at both ends of a string. *)
Definition trim (s : string) : string :=
  string_rev (ltrim (string_rev (ltrim s))).

(** Modelled from the spec: [util::replace_all] (util.cc is not under src)
    rewrites [input] from left to right: every occurrence of the non-empty
    [pattern] found by the scan is replaced by [replace_with], and the scan
    resumes behind the inserted text, so the replacements are never scanned
    again.  [skip] counts the characters of a matched pattern that are still
    to be consumed. *)
Fixpoint replace_all_from (pattern replace_with : string) (skip : nat)
    (input : string) : string :=
  match input with
  | EmptyString => EmptyString
  | String c rest =>
      match skip with
      | S k => replace_all_from pattern replace_with k rest
      | O =>
          if String.prefix pattern input
          then replace_with +:+
               replace_all_from pattern replace_with
                 (Nat.pred (String.length pattern)) rest
          else String c (replace_all_from pattern replace_with O rest)
      end
  end.

Definition replace_all (input pattern replace_with : string) : string :=
  replace_all_from pattern replace_with O input.



(** Modelled from the spec: [util::split] (util.cc is not under src), for the
    one-character delimiters the callers pass.  A string without the
    delimiter is returned whole (also when it is empty); otherwise the pieces
    between delimiters are returned and empty pieces are dropped. *)
Fixpoint split_pieces (delimiter : ascii) (piece : string) (str : string)
    : list string :=
  match str with
  | EmptyString => if string_is_empty piece then [] else [piece]
  | String c rest =>
      if Ascii.eqb c delimiter
      then (if string_is_empty piece then [] else [piece])
             ++ split_pieces delimiter EmptyString rest
      else split_pieces delimiter (push_back piece c) rest
  end.

Fixpoint string_contains_char (c : ascii) (s : string) : bool :=
  match s with
  | EmptyString => false
  | String d rest => Ascii.eqb c d || string_contains_char c rest
  end.

Definition split (str : string) (delimiter : ascii) : list string :=
  if string_contains_char delimiter str
  then split_pieces delimiter EmptyString str
  else [str].

(** *** The identity service ([to_id]) *)

(** [static_cast<int64_t>] of an unsigned 64-bit value. *)
Definition to_int64 (z : Z) : Z :=
  let w := z mod 2 ^ 64 in
  if w <? 2 ^ 63 then w else w - 2 ^ 64.

(** The canonical form of a qualified name: what [to_id] and
    [VisitNamespaceDecl] do to [getQualifiedNameAsString()] before hashing. *)
Definition canonical (qualified_name : string) : string :=
  let qualified_name := replace_all qualified_name "(anonymous namespace)" "" in
  replace_all qualified_name "::::" "::".

(** A concrete 64-bit string hash (FNV-1a), used to instantiate
    [std::hash<std::string>] in examples. *)
Definition fnv1a_step (h : Z) (c : ascii) : Z :=
  (Z.lxor h (Z.of_nat (char_code c)) * 1099511628211) mod 2 ^ 64.

Fixpoint fnv1a_from (h : Z) (s : string) : Z :=
  match s with
  | EmptyString => h
  | String c rest => fnv1a_from (fnv1a_step h c) rest
  end.

Definition fnv1a (s : string) : Z := fnv1a_from 14695981039346656037 s.

(** The kinds of [clang::TemplateArgument] the visitor tells apart; [TypeArg]
    carries [getAsType()].  The visitor asks every argument of another kind
    for its type, which only a type argument has: declaration and pack
    arguments are outside the model. *)
Inductive TemplateArgument (T : Type) : Type :=
  | Integral | Null | Expression | NullPtr | Template | TemplateExpansion
  | TypeArg (t : T).

Arguments Integral {T}.
Arguments Null {T}.
Arguments Expression {T}.
Arguments NullPtr {T}.
Arguments Template {T}.
Arguments TemplateExpansion {T}.
Arguments TypeArg {T} t.

(** A visitor callback either returns (traversal continues) or stops at a
    failed [assert]. *)
Inductive outcome (A : Type) : Type :=
  | Done (a : A)
  | AssertionFailed.

Arguments Done {A} a.
Arguments AssertionFailed {A}.

Section Model.

#[local] Set Default Proof Using "Type".

(** [std::hash<std::string>]: some deterministic function into [size_t]. *)
Variable hash : string -> Z.
Hypothesis hash_range : forall s, 0 <= hash s < 2 ^ 64.


(** translation_unit_visitor.cc: [int64_t to_id] of a namespace declaration,
    given the declaration's [getQualifiedNameAsString()]. *)
Definition to_id (qualified_name : string) : Z :=
  to_int64 (Z.shiftr (hash (canonical qualified_name)) 3).

Definition is_Some_bool {A : Type} (o : option A) : bool :=
  match o with Some _ => true | None => false end.

(** *** The package-diagram visitor (translation_unit_visitor.cc) *)

(** Modelled from the spec: [common::model::relationship_t] (its header is
    not under src); the relationship kinds the spec lists. *)
Inductive relationship_t : Type :=
  | kExtension | kComposition | kAggregation | kAssociation
  | kDependency | kInstantiation | kFriendship | kConstraint.

Definition relationship_t_eqb (a b : relationship_t) : bool :=
  match a, b with
  | kExtension, kExtension | kComposition, kComposition
  | kAggregation, kAggregation | kAssociation, kAssociation
  | kDependency, kDependency | kInstantiation, kInstantiation
  | kFriendship, kFriendship | kConstraint, kConstraint => true
  | _, _ => false
  end.

(** Modelled from the spec: the default of the [relationship_hint] parameter
    of [find_relationships], declared in the header (not under src). *)
Definition default_relationship_hint : relationship_t := kDependency.

(** [std::vector<std::tuple<int64_t, relationship_t>>] *)
Abbreviation found_relationships_t := (list (Z * relationship_t)).

Record NamespaceDecl : Type := {
  getQualifiedNameAsString : string;
  isAnonymousNamespace : bool;
  isInline : bool;
  (** the declaration carries the deprecated attribute *)
  ns_deprecated : bool;
  (** the comment of the declaration asks to skip it *)
  ns_skip : bool
}.

(** What [getEnclosingNamespaceContext()] can point to; [isNamespace()]
    holds of [Namespace] only. *)
Inductive DeclContext : Type :=
  | TranslationUnit
  | Namespace (ns : NamespaceDecl).

(** The shapes of [clang::QualType] that [find_relationships] classifies,
    one shape per type: the first test of the chain that a type passes.
    [TemplateSpecializationType aliased args] is a specialization with
    arguments [args]; [aliased] is [getAliasedType()] when [isTypeAlias()].
    [RecordType ctx] carries the enclosing namespace context of the record
    declaration ([None] for a null pointer). *)
#[local] Unset Elimination Schemes.
Inductive QualType : Type :=
  | VoidType
  | BuiltinType
  | PointerType (pointee : QualType)
  | RValueReferenceType (referent : QualType)
  | LValueReferenceType (referent : QualType)
  | ArrayType (element : QualType)
  | EnumType (decl_id : Z)
  | TemplateSpecializationType (aliased : option QualType)
      (args : list (TemplateArgument QualType))
  | FunctionProtoType (result : QualType) (param_types : list QualType)
  | RecordType (namespace_context : option DeclContext).
#[local] Set Elimination Schemes.

Definition isVoidType (type : QualType) : bool :=
  match type with VoidType => true | _ => false end.

Definition isVoidPointerType (type : QualType) : bool :=
  match type with PointerType pointee => isVoidType pointee | _ => false end.

(** [should_include] of the diagram filter, on a qualified name. *)
Variable should_include : string -> bool.

(** The state of one call: the local [result] and the vector passed by
    reference. *)
Abbreviation found := (bool * found_relationships_t)%type.

(** The loop over [param_types()] of a function prototype argument;
    [recurse] is the recursive call. *)
Definition scan_param_types
    (recurse : QualType -> found_relationships_t -> relationship_t -> found)
    : list QualType -> found -> found :=
  fix scan (params : list QualType) (st : found) : found :=
    match params with
    | [] => st
    | param_type :: params' =>
        scan params' (recurse param_type (snd st) kDependency)
    end.

(** The loop over the arguments of a template specialization. *)
Definition scan_arguments
    (recurse : QualType -> found_relationships_t -> relationship_t -> found)
    (relationship_hint : relationship_t)
    : list (TemplateArgument QualType) -> found -> found :=
  fix scan (arguments : list (TemplateArgument QualType)) (st : found)
      : found :=
    match arguments with
    | [] => st
    | template_argument :: arguments' =>
        scan arguments'
          match template_argument with
          | Integral | Null | Expression | NullPtr | Template
          | TemplateExpansion => st
          | TypeArg (FunctionProtoType _ param_types) =>
              scan_param_types recurse param_types st
          | TypeArg t => recurse t (snd st) relationship_hint
          end
    end.

Fixpoint find_relationships (type : QualType)
    (relationships : found_relationships_t) (relationship_hint : relationship_t)
    {struct type} : found :=
  if isVoidType type || isVoidPointerType type then (false, relationships)
  else
    match type with
    | PointerType pointee =>
        (false, snd (find_relationships pointee relationships kAssociation))
    | RValueReferenceType referent =>
        (false, snd (find_relationships referent relationships kAggregation))
    | LValueReferenceType referent =>
        (false, snd (find_relationships referent relationships kAssociation))
    | ArrayType element =>
        (false, snd (find_relationships element relationships kAggregation))
    | EnumType decl_id =>
        (false, relationships ++ [(decl_id, relationship_hint)])
    | TemplateSpecializationType None args =>
        scan_arguments find_relationships relationship_hint args
          (false, relationships)
    | TemplateSpecializationType
        (Some (TemplateSpecializationType _ aliased_args)) _ =>
        scan_arguments find_relationships relationship_hint aliased_args
          (false, relationships)
    | TemplateSpecializationType (Some _) _ => (false, relationships)
    | RecordType (Some (Namespace namespace_declaration)) =>
        if should_include (getQualifiedNameAsString namespace_declaration)
        then
          let target_id :=
            to_id (getQualifiedNameAsString namespace_declaration) in
          (true, relationships ++ [(target_id, relationship_hint)])
        else (false, relationships)
    | RecordType _ => (false, relationships)
    | VoidType | BuiltinType | FunctionProtoType _ _ => (false, relationships)
    end.

(** A measure of types for inductions that follow [find_relationships]. *)
Fixpoint type_size (type : QualType) : nat :=
  match type with
  | VoidType | BuiltinType | EnumType _ | RecordType _ => 1
  | PointerType t | RValueReferenceType t | LValueReferenceType t
  | ArrayType t => S (type_size t)
  | TemplateSpecializationType aliased args =>
      S (match aliased with Some t => type_size t | None => O end
         + list_sum
             (map (fun a => match a with TypeArg t => type_size t | _ => O end)
                args))
  | FunctionProtoType result param_types =>
      S (type_size result + list_sum (map type_size param_types))
  end.

(** [clang::FunctionDecl], also for methods and for the templated
    declaration of a function template.  A parameter may be a null pointer. *)
Record FunctionDecl : Type := {
  fn_isInSystemHeader : bool;
  getReturnType : QualType;
  parameters : list (option QualType);
  isDefaulted : bool;
  isExplicitlyDefaulted : bool;
  fn_getEnclosingNamespaceContext : option DeclContext
}.

Record FunctionTemplateDecl : Type := { getTemplatedDecl : FunctionDecl }.

Record FriendDecl : Type := {
  (** [getFriendDecl()], with [isTemplateDecl()] of the declaration *)
  getFriendDecl : option bool;
  (** [getFriendType()->getType()] *)
  getFriendType : option QualType
}.

(** The members of a record that [process_class_children] looks at. *)
Inductive Decl : Type :=
  | FunctionTemplate (method_template : FunctionTemplateDecl)
  | Var (isStaticDataMember : bool) (type : QualType)
  | OtherDecl.

Record CXXRecordDecl : Type := {
  cls_isInSystemHeader : bool;
  (** [isTemplated() || isTemplateDecl()] or a template specialization *)
  cls_isTemplate : bool;
  methods : list (option FunctionDecl);
  decls : list Decl;
  fields : list (option QualType);
  isCompleteDefinition : bool;
  friends : list (option FriendDecl);
  bases : list QualType;
  cls_getEnclosingNamespaceContext : option DeclContext
}.

Definition find_relationships' (type : QualType)
    (relationships : found_relationships_t) (hint : relationship_t)
    : found_relationships_t :=
  snd (find_relationships type relationships hint).

(** What a call on [type] adds to the vector. *)
Definition found_in (type : QualType) (hint : relationship_t)
    : found_relationships_t :=
  snd (find_relationships type [] hint).

(** What the calls on the non-null parameters add, in order. *)
Definition found_in_parameters (params : list (option QualType))
    : found_relationships_t :=
  flat_map
    (fun param =>
       match param with
       | Some type => found_in type default_relationship_hint
       | None => []
       end)
    params.

Definition scan_parameters (params : list (option QualType))
    (relationships : found_relationships_t) : found_relationships_t :=
  fold_left
    (fun relationships param =>
       match param with
       | Some type =>
           find_relationships' type relationships default_relationship_hint
       | None => relationships
       end)
    params relationships.

Definition process_method (method : FunctionDecl)
    (relationships : found_relationships_t) : found_relationships_t :=
  let relationships :=
    find_relationships' (getReturnType method) relationships
      default_relationship_hint in
  scan_parameters (parameters method) relationships.

Definition process_template_method (method : FunctionTemplateDecl)
    (relationships : found_relationships_t) : found_relationships_t :=
  if isDefaulted (getTemplatedDecl method)
     && negb (isExplicitlyDefaulted (getTemplatedDecl method))
  then relationships
  else
    let relationships :=
      find_relationships' (getReturnType (getTemplatedDecl method))
        relationships default_relationship_hint in
    scan_parameters (parameters (getTemplatedDecl method)) relationships.

Definition process_field (field_type : QualType)
    (relationships : found_relationships_t) : found_relationships_t :=
  find_relationships' field_type relationships kDependency.

Definition process_static_field (field_type : QualType)
    (relationships : found_relationships_t) : found_relationships_t :=
  find_relationships' field_type relationships kDependency.

Definition process_friend (friend_declaration : FriendDecl)
    (relationships : found_relationships_t) : found_relationships_t :=
  match getFriendDecl friend_declaration with
  | Some _ => relationships
  | None =>
      match getFriendType friend_declaration with
      | Some friend_type =>
          find_relationships' friend_type relationships
            default_relationship_hint
      | None => relationships
      end
  end.

Definition process_class_children (cls : CXXRecordDecl)
    (relationships : found_relationships_t) : found_relationships_t :=
  let relationships :=
    fold_left
      (fun rels method =>
         match method with
         | Some m => process_method m rels
         | None => rels
         end)
      (methods cls) relationships in
  let relationships :=
    fold_left
      (fun rels decl =>
         match decl with
         | FunctionTemplate method_template =>
             process_template_method method_template rels
         | _ => rels
         end)
      (decls cls) relationships in
  let relationships :=
    fold_left
      (fun rels field =>
         match field with
         | Some type => process_field type rels
         | None => rels
         end)
      (fields cls) relationships in
  let relationships :=
    fold_left
      (fun rels decl =>
         match decl with
         | Var true type => process_static_field type rels
         | _ => rels
         end)
      (decls cls) relationships in
  if isCompleteDefinition cls
  then
    fold_left
      (fun rels friend_declaration =>
         match friend_declaration with
         | Some f => process_friend f rels
         | None => rels
         end)
      (friends cls) relationships
  else relationships.

Definition process_class_bases (cls : CXXRecordDecl)
    (relationships : found_relationships_t) : found_relationships_t :=
  fold_left
    (fun rels base => find_relationships' base rels default_relationship_hint)
    (bases cls) relationships.

Definition process_class_declaration (cls : CXXRecordDecl)
    (relationships : found_relationships_t) : found_relationships_t :=
  process_class_bases cls (process_class_children cls relationships).

(** [common::model::relationship], as the package visitor builds it. *)
Record relationship : Type := {
  type_ : relationship_t;
  destination : Z
}.

Definition relationship_eqb (a b : relationship) : bool :=
  relationship_t_eqb (type_ a) (type_ b) && (destination a =? destination b).

(** [common::model::package]: the fields the visitor sets.  The model keeps
    the canonical qualified name where the code keeps a name and a parent
    namespace. *)
Record package : Type := {
  package_name : string;
  package_id : Z;
  package_deprecated : bool;
  relationships_ : list relationship
}.

(** [package::add_relationship] (the element classes are not under src):
    some method that keeps the id of the package and adds at most the
    relationship it is given. *)
Variable add_relationship : relationship -> package -> package.
Hypothesis add_relationship_adds :
  forall r p,
    package_id (add_relationship r p) = package_id p
    /\ (forall r', In r' (relationships_ (add_relationship r p)) ->
                   r' = r \/ In r' (relationships_ p)).

(** Modelled from the spec: the package diagram (its model is not under src)
    owns its packages and finds them by id: [get(id)] returns the package
    whose id is [id], if there is one. *)
Abbreviation diagram := (list package).

Definition get (d : diagram) (id : Z) : option package :=
  find (fun p => package_id p =? id) d.

Definition add_package (p : package) (d : diagram) : diagram := d ++ [p].

(** Mutation through the reference that [get(id)] returns. *)
Fixpoint update_package (id : Z) (f : package -> package) (d : diagram)
    : diagram :=
  match d with
  | [] => []
  | p :: d' =>
      if package_id p =? id then f p :: d' else p :: update_package id f d'
  end.

(** [should_include] of the diagram filter, on a package. *)
Variable should_include_package : package -> bool.

Definition current_package_id_of (namespace_context : option DeclContext) : Z :=
  match namespace_context with
  | Some (Namespace ns) => to_id (getQualifiedNameAsString ns)
  | _ => 0
  end.

(** The loop of [add_relationships], which runs when the current package is
    in the diagram. *)
Definition add_dependencies (current_package_id : Z)
    (relationships : found_relationships_t) (d : diagram) : diagram :=
  fold_left
    (fun d dependency =>
       let destination_id := fst dependency in
       let r := {| type_ := kDependency; destination := destination_id |} in
       if negb (destination_id =? current_package_id)
       then update_package current_package_id (add_relationship r) d
       else d)
    relationships d.

Definition add_relationships (namespace_context : option DeclContext)
    (relationships : found_relationships_t) (d : diagram) : outcome diagram :=
  let current_package_id := current_package_id_of namespace_context in
  if current_package_id =? 0 then AssertionFailed
  else
    match get d current_package_id with
    | Some _ => Done (add_dependencies current_package_id relationships d)
    | None => Done d
    end.

Definition VisitNamespaceDecl (ns : NamespaceDecl) (d : diagram)
    : outcome diagram :=
  if isAnonymousNamespace ns || isInline ns then Done d
  else
    let qualified_name := canonical (getQualifiedNameAsString ns) in
    let p := {| package_name := qualified_name;
                package_id := to_id (getQualifiedNameAsString ns);
                package_deprecated := false;
                relationships_ := [] |} in
    if negb (0 <? package_id p) then AssertionFailed
    else if should_include_package p
            && negb (is_Some_bool (get d (package_id p)))
    then
      let p := {| package_name := package_name p;
                  package_id := package_id p;
                  package_deprecated := ns_deprecated ns;
                  relationships_ := relationships_ p |} in
      if negb (ns_skip ns) then Done (add_package p d) else Done d
    else Done d.

Definition VisitFunctionDecl (function_declaration : FunctionDecl)
    (d : diagram) : outcome diagram :=
  if fn_isInSystemHeader function_declaration then Done d
  else
    let relationships :=
      find_relationships' (getReturnType function_declaration) []
        default_relationship_hint in
    let relationships :=
      scan_parameters (parameters function_declaration) relationships in
    add_relationships (fn_getEnclosingNamespaceContext function_declaration)
      relationships d.

Definition VisitCXXRecordDecl (cls : CXXRecordDecl) (d : diagram)
    : outcome diagram :=
  if cls_isInSystemHeader cls then Done d
  else if cls_isTemplate cls then Done d
  else
    let relationships := process_class_declaration cls [] in
    add_relationships (cls_getEnclosingNamespaceContext cls) relationships d.

(** The declarations of a translation unit, in the order the traversal
    meets them. *)
Inductive TopLevelDecl : Type :=
  | NamespaceD (ns : NamespaceDecl)
  | FunctionD (f : FunctionDecl)
  | CXXRecordD (cls : CXXRecordDecl).

Definition visit (decl : TopLevelDecl) (d : diagram) : outcome diagram :=
  match decl with
  | NamespaceD ns => VisitNamespaceDecl ns d
  | FunctionD f => VisitFunctionDecl f d
  | CXXRecordD cls => VisitCXXRecordDecl cls d
  end.

Fixpoint traverse (tu : list TopLevelDecl) (d : diagram) : outcome diagram :=
  match tu with
  | [] => Done d
  | decl :: tu' =>
      match visit decl d with
      | Done d' => traverse tu' d'
      | AssertionFailed => AssertionFailed
      end
  end.

(** *** The parser of unexposed template parameters (clang_utils.cc) *)

(** [common::model::template_parameter], restricted to unexposed arguments:
    the type string given to [make_unexposed_argument] and the children
    added by [add_template_param]. *)
#[local] Unset Elimination Schemes.
Inductive template_parameter : Type :=
  | unexposed_argument (type : string)
      (template_params : list template_parameter).
#[local] Set Elimination Schemes.

Definition make_unexposed_argument (type : string) : template_parameter :=
  unexposed_argument type [].

Definition tp_type (t : template_parameter) : string :=
  match t with unexposed_argument type _ => type end.

Definition tp_template_params (t : template_parameter)
    : list template_parameter :=
  match t with unexposed_argument _ template_params => template_params end.

(** [t.add_template_param(std::move(param))] for every [param] of a vector. *)
Definition add_template_params (t : template_parameter)
    (params : list template_parameter) : template_parameter :=
  match t with
  | unexposed_argument type template_params =>
      unexposed_argument type (template_params ++ params)
  end.

(** The caller-supplied name resolution and [util::trim_typename]. *)
Variable ns_resolve : string -> string.
Variable trim_typename : string -> string.

(** What [std::move] leaves behind in an element of [nested_params]; the
    vector keeps its size. *)
Variable moved_from : template_parameter -> template_parameter.

(** The inner bracket-matching loop: the characters from
    [bracket_match_begin] up to [bracket_match_end]. *)
Fixpoint bracket_match (s : string) (nested_level : nat) : string :=
  match s with
  | EmptyString => EmptyString
  | String c rest =>
      if Ascii.eqb c "<" then String c (bracket_match rest (S nested_level))
      else if Ascii.eqb c ">" then
        match nested_level with
        | S n => String c (bracket_match rest n)
        | O => EmptyString
        end
      else String c (bracket_match rest nested_level)
  end.

(** The local variables [type], [nested_params] and [res] of the parser. *)
Record parser_state : Type := {
  ps_type : string;
  ps_nested_params : list template_parameter;
  ps_res : list template_parameter
}.

(** The block guarded by [complete_class_template_argument], which is also
    the block that runs behind the loop. *)
Definition complete_argument (st : parser_state) : parser_state :=
  let t := make_unexposed_argument (ns_resolve (trim_typename (ps_type st))) in
  let t := add_template_params t (ps_nested_params st) in
  {| ps_type := "";
     ps_nested_params := map moved_from (ps_nested_params st);
     ps_res := ps_res st ++ [t] |}.

(** The main loop over [it].  [skip] counts the characters between the
    brackets that [it = bracket_match_end - 1] jumps over; [nested] is the
    recursive call at [depth + 1]. *)
Fixpoint parse_loop (nested : string -> option (list template_parameter))
    (depth : Z) (skip : nat) (it : string) (st : parser_state)
    : option parser_state :=
  match it with
  | EmptyString => Some st
  | String c rest =>
      match skip with
      | S k => parse_loop nested depth k rest st
      | O =>
          if Ascii.eqb c "<" then
            let nested_params_str := bracket_match rest O in
            match nested nested_params_str with
            | None => None
            | Some nested_params =>
                let nested_params :=
                  match nested_params with
                  | [] => [make_unexposed_argument nested_params_str]
                  | _ => nested_params
                  end in
                parse_loop nested depth (String.length nested_params_str) rest
                  {| ps_type := ps_type st;
                     ps_nested_params := nested_params;
                     ps_res := ps_res st |}
            end
          else if Ascii.eqb c ">" then
            if depth =? 0 then Some st
            else parse_loop nested depth O rest (complete_argument st)
          else if Ascii.eqb c "," then
            parse_loop nested depth O rest (complete_argument st)
          else
            parse_loop nested depth O rest
              {| ps_type := push_back (ps_type st) c;
                 ps_nested_params := ps_nested_params st;
                 ps_res := ps_res st |}
      end
  end.

(** [None] stands for a recursion deeper than [fuel]. *)
Fixpoint parse_unexposed_template_params_fuel (fuel : nat) (params : string)
    (depth : Z) : option (list template_parameter) :=
  match fuel with
  | O => None
  | S fuel' =>
      match
        parse_loop
          (fun nested_params_str =>
             parse_unexposed_template_params_fuel fuel' nested_params_str
               (depth + 1))
          depth O (ltrim params)
          {| ps_type := ""; ps_nested_params := []; ps_res := [] |}
      with
      | None => None
      | Some st =>
          if string_is_empty (ps_type st) then Some (ps_res st)
          else Some (ps_res (complete_argument st))
      end
  end.

(** Every recursive call is on a strictly shorter string, so this much fuel
    is enough (see [parse_unexposed_template_params_total]). *)
Definition parse_unexposed_template_params (params : string) (depth : Z)
    : option (list template_parameter) :=
  parse_unexposed_template_params_fuel (S (String.length params)) params depth.

(** *** The tokenizer of unexposed template parameters (clang_utils.cc) *)

Definition is_identifier_character (c : ascii) : bool :=
  isalnum c || Ascii.eqb c "_".

(** [None] stands for the [std::out_of_range] that [t.at(0)] throws on an
    empty string. *)
Definition is_qualified_identifier (t : string) : option bool :=
  match t with
  | EmptyString => None
  | String c0 _ =>
      Some (isalpha c0
            && string_forallb
                 (fun c => is_identifier_character c || Ascii.eqb c ":") t)
  end.

(** [if (!tok.empty()) result.push_back(tok);] *)
Definition push_nonempty (result : list string) (tok : string) : list string :=
  if string_is_empty tok then result else result ++ [tok].

(** One round of the loop over the characters of a word, on [(tok, result)]. *)
Definition tokenize_char (st : string * list string) (c : ascii)
    : string * list string :=
  let '(tok, result) := st in
  if Ascii.eqb c "(" || Ascii.eqb c ")" || Ascii.eqb c "[" || Ascii.eqb c "]"
  then ("", push_nonempty result tok ++ [String c ""])
  else if Ascii.eqb c ":" then
    if negb (string_is_empty tok) && negb (String.eqb tok ":")
    then (":", result ++ [tok])
    else (push_back tok ":", result)
  else if Ascii.eqb c "," then ("", push_nonempty result tok ++ [","])
  else if Ascii.eqb c "*" then ("", push_nonempty result tok ++ ["*"])
  else if Ascii.eqb c "." then
    if String.eqb tok ".." then ("", result ++ ["..."])
    else if String.eqb tok "." then ("..", result)
    else if negb (string_is_empty tok) then (".", result ++ [tok])
    else (tok, result)
  else (push_back tok c, result).

Fixpoint string_fold_left {A : Type} (f : A -> ascii -> A) (s : string)
    (a : A) : A :=
  match s with
  | EmptyString => a
  | String c rest => string_fold_left f rest (f a c)
  end.

(** The body of the loop over [spaced_out], on [result]. *)
Definition tokenize_word (result : list string) (word : string)
    : option (list string) :=
  match is_qualified_identifier word with
  | None => None
  | Some true =>
      if negb (String.eqb word "class") && negb (String.eqb word "templated")
         && negb (String.eqb word "struct")
      then Some (result ++ [word])
      else Some result
  | Some false =>
      let '(tok, result) := string_fold_left tokenize_char word ("", result) in
      let tok := trim tok in
      if negb (string_is_empty tok) then
        if negb (String.eqb tok "class") && negb (String.eqb tok "typename")
           && negb (String.eqb word "struct")
        then Some (result ++ [tok])
        else Some result
      else Some result
  end.

Fixpoint tokenize_words (spaced_out : list string) (result : list string)
    : option (list string) :=
  match spaced_out with
  | [] => Some result
  | word :: spaced_out' =>
      match tokenize_word result word with
      | None => None
      | Some result' => tokenize_words spaced_out' result'
      end
  end.

Definition tokenize_unexposed_template_parameter (t : string)
    : option (list string) :=
  tokenize_words (split t " ") [].

(** *** The PlantUML sequence generator (sequence_diagram_generator.cc) *)

(** [sequence_diagram::model::message]: the fields the generator reads. *)
Record message : Type := {
  from : string;
  to : string;
  to_usr : string;
  (** the field [message] *)
  message_name : string;
  return_type : string
}.

Record activity : Type := { messages : list message }.

(** Modelled from the spec: [config::source_location] (config.h is not under
    src): an entry of [start_from] is a USR, a fully-qualified name or a
    source location. *)
Inductive source_location : Type :=
  | usr (u : string)
  | qualified_name (name : string)
  | location (file : string) (line : Z).

(** [config::sequence_diagram]: the options the generator reads. *)
Record sequence_diagram : Type := {
  using_namespace : list string;
  puml_before : list string;
  puml_after : list string;
  start_from : list source_location
}.

(** [util::ns_relative] (util.cc is not under src). *)
Variable ns_relative : list string -> string -> string.

Definition dquote : string := String (ascii_of_nat 34) EmptyString.
Definition endl : string := String (ascii_of_nat 10) EmptyString.

(** The generator's [m_config] is the first argument of its methods;
    [m_model.sequences] is a finite map. *)
Definition generate_call (m_config : sequence_diagram) (m : message)
    (ostr : string) : string :=
  let from_ := ns_relative (using_namespace m_config) (from m) in
  let to_ := ns_relative (using_namespace m_config) (to m) in
  ostr +:+ dquote +:+ from_ +:+ dquote +:+ " " +:+ "->" +:+ " " +:+ dquote
       +:+ to_ +:+ dquote +:+ " : " +:+ message_name m +:+ "()" +:+ endl.

(** The line that [generate_return] writes when it writes one. *)
Definition return_arrow (m_config : sequence_diagram) (m : message) : string :=
  let from_ := ns_relative (using_namespace m_config) (from m) in
  let to_ := ns_relative (using_namespace m_config) (to m) in
  dquote +:+ to_ +:+ dquote +:+ " " +:+ "-->" +:+ " " +:+ dquote +:+ from_
         +:+ dquote +:+ endl.

Definition generate_return (m_config : sequence_diagram) (m : message)
    (ostr : string) : string :=
  if negb (String.eqb (from m) (to m))
     && negb (String.eqb (return_type m) "void")
  then ostr +:+ return_arrow m_config m
  else ostr.

(** The body of the loop of [generate_activity]; [nested] is the recursive
    call. *)
Definition activation (keyword : string) (m_config : sequence_diagram)
    (m : message) : string :=
  let to_ := ns_relative (using_namespace m_config) (to m) in
  keyword +:+ dquote +:+ to_ +:+ dquote +:+ endl.

Definition generate_message (m_config : sequence_diagram)
    (sequences : gmap string activity)
    (nested : activity -> string -> option string) (m : message)
    (ostr : string) : option string :=
  let ostr := generate_call m_config m ostr in
  let ostr := ostr +:+ activation "activate " m_config m in
  let inner :=
    match sequences !! to_usr m with
    | Some a => nested a ostr
    | None => Some ostr
    end in
  match inner with
  | None => None
  | Some ostr =>
      let ostr := generate_return m_config m ostr in
      Some (ostr +:+ activation "deactivate " m_config m)
  end.

Fixpoint generate_messages (step : message -> string -> option string)
    (ms : list message) (ostr : string) : option string :=
  match ms with
  | [] => Some ostr
  | m :: ms' =>
      match step m ostr with
      | None => None
      | Some ostr' => generate_messages step ms' ostr'
      end
  end.

(** The recursion follows the call graph and need not end; [None] stands for
    a recursion deeper than [fuel]. *)
Fixpoint generate_activity (m_config : sequence_diagram) (fuel : nat)
    (sequences : gmap string activity) (a : activity) (ostr : string)
    : option string :=
  match fuel with
  | O => None
  | S fuel' =>
      generate_messages
        (generate_message m_config sequences
           (generate_activity m_config fuel' sequences))
        (messages a) ostr
  end.

Definition write_lines (lines : list string) (ostr : string) : string :=
  fold_left (fun ostr line => ostr +:+ line +:+ endl) lines ostr.

(** [m_model.sequences[start_from]]: the lookup inserts an empty activity
    under a missing key. *)
Definition sequences_at (sequences : gmap string activity) (key : string)
    : activity * gmap string activity :=
  match sequences !! key with
  | Some a => (a, sequences)
  | None => ({| messages := [] |}, <[key := {| messages := [] |}]> sequences)
  end.

(** The loop of [generate] over [m_config.start_from]. *)
Fixpoint generate_start_from (m_config : sequence_diagram) (fuel : nat)
    (entries : list source_location)
    (sequences : gmap string activity) (ostr : string)
    : option (string * gmap string activity) :=
  match entries with
  | [] => Some (ostr, sequences)
  | sf :: entries' =>
      match sf with
      | usr start =>
          let '(a, sequences) := sequences_at sequences start in
          match generate_activity m_config fuel sequences a ostr with
          | None => None
          | Some ostr =>
              generate_start_from m_config fuel entries' sequences ostr
          end
      | _ => generate_start_from m_config fuel entries' sequences ostr
      end
  end.



Definition generate (m_config : sequence_diagram) (fuel : nat)
    (sequences : gmap string activity) (ostr : string)
    : option (string * gmap string activity) :=
  let ostr := ostr +:+ "@startuml" +:+ endl in
  let ostr := write_lines (puml_before m_config) ostr in
  match
    generate_start_from m_config fuel (start_from m_config) sequences ostr
  with
  | None => None
  | Some (ostr, sequences) =>
      let ostr := write_lines (puml_after m_config) ostr in
      Some (ostr +:+ "@enduml" +:+ endl, sequences)
  end.

(** *** Custom user data (cli_handler.cc) *)

(** [inja::json]: the value kinds of the JSON library.  An object is kept as
    a list of bindings with distinct keys; the code reads it by key only. *)
#[local] Unset Elimination Schemes.
Inductive json : Type :=
  | Jnull
  | Jboolean (b : bool)
  | Jnumber (n : Z)
  | Jstring (s : string)
  | Jarray (elements : list json)
  | Jobject (members : list (string * json)).
#[local] Set Elimination Schemes.

Definition is_object (j : json) : bool :=
  match j with Jobject _ => true | _ => false end.

(** [json::empty()]: null is empty, a container is empty when it has no
    element, any other value is not. *)
Definition empty (j : json) : bool :=
  match j with
  | Jnull => true
  | Jarray elements => match elements with [] => true | _ => false end
  | Jobject members => match members with [] => true | _ => false end
  | _ => false
  end.

Fixpoint members_lookup (key : string) (members : list (string * json))
    : option json :=
  match members with
  | [] => None
  | (k, v) :: members' =>
      if String.eqb k key then Some v else members_lookup key members'
  end.

Fixpoint members_set (key : string) (value : json)
    (members : list (string * json)) : list (string * json) :=
  match members with
  | [] => [(key, value)]
  | (k, v) :: members' =>
      if String.eqb k key then (k, value) :: members'
      else (k, v) :: members_set key value members'
  end.

(** How the walk along one key path ends; each case carries the node as the
    walk leaves it. *)
Inductive walked : Type :=
  | Assigned (node : json)
  | NotAnObject (node : json)
  | TypeError (node : json).

Definition rebuild (f : json -> json) (w : walked) : walked :=
  match w with
  | Assigned node => Assigned (f node)
  | NotAnObject node => NotAnObject (f node)
  | TypeError node => TypeError (f node)
  end.

(** The loop over the keys of one path, from the node [user_data_it] points
    to, and the assignment behind it.  [json::operator[]] with a key turns
    null into an object, adds a null member under a missing key, and throws
    a type error on a value that is not an object. *)
Fixpoint set_path (path : list string) (value : json) (node : json) : walked :=
  match path with
  | [] => Assigned value
  | key :: path' =>
      if negb (is_object node) && negb (empty node) then NotAnObject node
      else
        match node with
        | Jnull =>
            rebuild (fun child => Jobject [(key, child)])
              (set_path path' value Jnull)
        | Jobject members =>
            let child :=
              match members_lookup key members with
              | Some child => child
              | None => Jnull
              end in
            rebuild (fun child => Jobject (members_set key child members))
              (set_path path' value child)
        | _ => TypeError node
        end
  end.

(** The node that a path designates, read without changing anything. *)
Fixpoint get_path (path : list string) (node : json) : option json :=
  match path with
  | [] => Some node
  | key :: path' =>
      match node with
      | Jobject members =>
          match members_lookup key members with
          | Some child => get_path path' child
          | None => None
          end
      | _ => None
      end
  end.

Inductive cli_flow_t : Type := kExit | kContinue | kError.

(** The result of [add_custom_user_data]: the value returned, or the
    exception that leaves the function, with [config.user_data()] behind. *)
Inductive user_data_result : Type :=
  | Returned (flow : cli_flow_t) (config_user_data : json)
  | Thrown (config_user_data : json).

Fixpoint add_custom_user_data (user_data : list (string * string))
    (config_user_data : json) : user_data_result :=
  match user_data with
  | [] => Returned kContinue config_user_data
  | (key_path, value) :: user_data' =>
      let path := split key_path "." in
      match set_path path (Jstring value) config_user_data with
      | Assigned config_user_data' =>
          add_custom_user_data user_data' config_user_data'
      | NotAnObject config_user_data' => Returned kError config_user_data'
      | TypeError config_user_data' => Thrown config_user_data'
      end
  end.

(** ** Part II. Theorems *)

(** *** Strings: appending and [replace_all] *)

Lemma string_length_append (s t : string) :
  String.length (s +:+ t) = (String.length s + String.length t)%nat.
Proof. induction s as [|c s IH]; simpl; [reflexivity|]. now rewrite IH. Qed.

Lemma append_cons (x : ascii) (a b : string) :
  String x a +:+ b = String x (a +:+ b).
Proof. reflexivity. Qed.

Lemma append_nil_r (a : string) : a +:+ "" = a.
Proof.
  induction a as [|x a IH]; [reflexivity|].
  rewrite append_cons. now rewrite IH.
Qed.

Lemma append_assoc (a b c : string) : (a +:+ b) +:+ c = a +:+ (b +:+ c).
Proof.
  induction a as [|x a IH]; [reflexivity|].
  rewrite !append_cons. now rewrite IH.
Qed.





















(** *** The identity service *)




(** *** [find_relationships] only appends to the vector it is given *)

Definition appends (step : found -> found) : Prop :=
  forall b rels,
    step (b, rels) = (fst (step (b, [])), rels ++ snd (step (b, []))).

Lemma appends_id : appends (fun st => st).
Proof. intros b rels. simpl. now rewrite app_nil_r. Qed.

Lemma appends_compose (f g : found -> found) :
  appends f -> appends g -> appends (fun st => g (f st)).
Proof.
  intros Hf Hg b rels. cbv beta.
  rewrite (Hf b rels).
  destruct (f (b, [])) as [b1 x]. cbn [fst snd].
  rewrite (Hg b1 (rels ++ x)), (Hg b1 x). cbn [fst snd].
  now rewrite app_assoc.
Qed.

Definition appends_at (type : QualType) : Prop :=
  forall hint, appends (fun st => find_relationships type (snd st) hint).

Lemma scan_param_types_appends (params : list QualType) :
  (forall p, In p params -> appends_at p) ->
  appends (scan_param_types find_relationships params).
Proof.
  induction params as [|p params IH]; intros Hall.
  - apply appends_id.
  - change (scan_param_types find_relationships (p :: params))
      with (fun st : found =>
              scan_param_types find_relationships params
                (find_relationships p (snd st) kDependency)).
    apply (appends_compose
             (fun st : found => find_relationships p (snd st) kDependency)).
    + apply Hall. now left.
    + apply IH. intros q Hq. apply Hall. now right.
Qed.

(** One round of the loop over template arguments. *)
Definition argument_step (hint : relationship_t)
    (template_argument : TemplateArgument QualType) (st : found) : found :=
  match template_argument with
  | Integral | Null | Expression | NullPtr | Template | TemplateExpansion => st
  | TypeArg (FunctionProtoType _ param_types) =>
      scan_param_types find_relationships param_types st
  | TypeArg t => find_relationships t (snd st) hint
  end.

Lemma scan_arguments_cons (hint : relationship_t)
    (a : TemplateArgument QualType) (args : list (TemplateArgument QualType))
    (st : found) :
  scan_arguments find_relationships hint (a :: args) st
  = scan_arguments find_relationships hint args (argument_step hint a st).
Proof. reflexivity. Qed.

Definition argument_appends (a : TemplateArgument QualType) : Prop :=
  match a with
  | TypeArg (FunctionProtoType _ param_types) =>
      forall p, In p param_types -> appends_at p
  | TypeArg t => appends_at t
  | _ => True
  end.

Lemma argument_step_appends (hint : relationship_t)
    (a : TemplateArgument QualType) :
  argument_appends a -> appends (argument_step hint a).
Proof.
  destruct a as [| | | | | |t]; simpl; try (intros _; apply appends_id).
  destruct t; simpl; intros H; try apply H.
  now apply scan_param_types_appends.
Qed.

Lemma scan_arguments_appends (hint : relationship_t)
    (args : list (TemplateArgument QualType)) :
  (forall a, In a args -> argument_appends a) ->
  appends (scan_arguments find_relationships hint args).
Proof.
  induction args as [|a args IH]; intros Hall.
  - apply appends_id.
  - intros b rels. rewrite !scan_arguments_cons.
    apply (appends_compose (argument_step hint a)
             (scan_arguments find_relationships hint args)).
    + apply argument_step_appends, Hall. now left.
    + apply IH. intros a' Ha'. apply Hall. now right.
Qed.

Lemma list_sum_In {A : Type} (f : A -> nat) (x : A) (l : list A) :
  In x l -> (f x <= list_sum (map f l))%nat.
Proof.
  induction l as [|y l IH]; simpl; [tauto|].
  intros [->|H]; [lia|]. specialize (IH H). lia.
Qed.

Definition argument_size (a : TemplateArgument QualType) : nat :=
  match a with TypeArg t => type_size t | _ => O end.

Lemma type_size_specialization (aliased : option QualType)
    (args : list (TemplateArgument QualType)) :
  type_size (TemplateSpecializationType aliased args)
  = S (match aliased with Some t => type_size t | None => O end
       + list_sum (map argument_size args)).
Proof. reflexivity. Qed.

Lemma arguments_append_below (n : nat)
    (args : list (TemplateArgument QualType)) :
  (forall t, (type_size t < n)%nat -> appends_at t) ->
  (list_sum (map argument_size args) < n)%nat ->
  forall a, In a args -> argument_appends a.
Proof.
  intros IH Hn a Ha.
  pose proof (list_sum_In argument_size a args Ha) as Hle.
  destruct a as [| | | | | |t]; simpl; trivial.
  simpl in Hle.
  destruct t; try (apply IH; lia).
  intros p Hp. apply IH.
  pose proof (list_sum_In type_size p _ Hp). simpl in Hle. lia.
Qed.

Lemma find_relationships_appends_below (n : nat) :
  forall type, (type_size type < n)%nat -> appends_at type.
Proof.
  induction n as [|n IH]; intros type Hn; [lia|].
  assert (Hwrap : forall t k (rels : found_relationships_t),
             (type_size t < n)%nat ->
             snd (find_relationships t rels k)
             = rels ++ snd (find_relationships t [] k)).
  { intros t k rels Ht. pose proof (IH t Ht k false rels) as E.
    cbn [snd] in E. now rewrite E. }
  intros hint b rels. cbv beta. cbn [snd].
  destruct type as [| |t|t|t|t|id|aliased args|r ps|ctx]; simpl in *.
  - now rewrite app_nil_r.
  - now rewrite app_nil_r.
  - destruct (isVoidType t); simpl;
      [now rewrite app_nil_r | rewrite (Hwrap t) by lia; reflexivity].
  - rewrite (Hwrap t) by lia; reflexivity.
  - rewrite (Hwrap t) by lia; reflexivity.
  - rewrite (Hwrap t) by lia; reflexivity.
  - reflexivity.
  - destruct aliased as [aliased|].
    + destruct aliased as [| |t|t|t|t|id|aliased' args'|r ps|ctx];
        simpl; try now rewrite app_nil_r.
      apply (scan_arguments_appends hint args').
      apply (arguments_append_below n); [exact IH|].
      fold argument_size in Hn.
      rewrite type_size_specialization in Hn. lia.
    + apply (scan_arguments_appends hint args).
      apply (arguments_append_below n); [exact IH|].
      fold argument_size in Hn. lia.
  - now rewrite app_nil_r.
  - destruct ctx as [[|ns]|]; simpl; try now rewrite app_nil_r.
    destruct (should_include _); simpl; [reflexivity | now rewrite app_nil_r].
Qed.

(** The relationships a call adds do not depend on the vector it is given:
    they are appended behind it. *)
Lemma find_relationships_appends (type : QualType)
    (relationships : found_relationships_t) (hint : relationship_t) :
  find_relationships type relationships hint
  = (fst (find_relationships type [] hint),
     relationships ++ snd (find_relationships type [] hint)).
Proof.
  exact (find_relationships_appends_below (S (type_size type)) type
           (Nat.lt_succ_diag_r _) hint false relationships).
Qed.

(** *** The relationship kind follows the shape of the type *)

(** C2 (amended): a pointer or an lvalue reference hands its pointee or
    referent the hint association, an rvalue reference and an array hand
    theirs the hint aggregation, and what the inner type adds is appended to
    the vector; an enum adds one relationship to the id of its declaration
    whose kind is the hint the call received; void and a pointer to void add
    nothing. *)
Theorem find_relationships_by_shape (relationships : found_relationships_t)
    (relationship_hint : relationship_t) :
  (forall pointee,
     find_relationships (PointerType pointee) relationships relationship_hint
     = if isVoidType pointee then (false, relationships)
       else (false,
             relationships ++ snd (find_relationships pointee [] kAssociation)))
  /\ (forall referent,
        find_relationships (LValueReferenceType referent) relationships
          relationship_hint
        = (false,
           relationships ++ snd (find_relationships referent [] kAssociation)))
  /\ (forall referent,
        find_relationships (RValueReferenceType referent) relationships
          relationship_hint
        = (false,
           relationships ++ snd (find_relationships referent [] kAggregation)))
  /\ (forall element,
        find_relationships (ArrayType element) relationships relationship_hint
        = (false,
           relationships ++ snd (find_relationships element [] kAggregation)))
  /\ (forall decl_id,
        find_relationships (EnumType decl_id) relationships relationship_hint
        = (false, relationships ++ [(decl_id, relationship_hint)]))
  /\ find_relationships VoidType relationships relationship_hint
     = (false, relationships)
  /\ find_relationships (PointerType VoidType) relationships relationship_hint
     = (false, relationships).
Proof.
  assert (Hin : forall t k,
            snd (find_relationships t relationships k)
            = relationships ++ snd (find_relationships t [] k)).
  { intros t k. now rewrite (find_relationships_appends t relationships k). }
  repeat split; try reflexivity.
  - intros pointee. simpl. destruct (isVoidType pointee); [reflexivity|].
    now rewrite Hin.
  - intros referent. simpl. now rewrite Hin.
  - intros referent. simpl. now rewrite Hin.
  - intros element. simpl. now rewrite Hin.
Qed.

(** *** Template methods *)

Lemma find_relationships'_appends (type : QualType)
    (relationships : found_relationships_t) (hint : relationship_t) :
  find_relationships' type relationships hint
  = relationships ++ found_in type hint.
Proof.
  unfold find_relationships', found_in.
  now rewrite (find_relationships_appends type relationships hint).
Qed.

Lemma scan_parameters_appends (params : list (option QualType))
    (relationships : found_relationships_t) :
  scan_parameters params relationships
  = relationships ++ found_in_parameters params.
Proof.
  unfold scan_parameters, found_in_parameters.
  revert relationships.
  induction params as [|[type|] params IH]; intros relationships; simpl.
  - now rewrite app_nil_r.
  - rewrite IH, find_relationships'_appends. now rewrite app_assoc.
  - apply IH.
Qed.

(** C8: a template method whose templated declaration is defaulted but not
    explicitly defaulted leaves the found relationships as they are; for any
    other template method the relationships found in the return type and
    then in every parameter type are appended. *)
Theorem process_template_method_scans (method : FunctionTemplateDecl)
    (relationships : found_relationships_t) :
  process_template_method method relationships
  = if isDefaulted (getTemplatedDecl method)
       && negb (isExplicitlyDefaulted (getTemplatedDecl method))
    then relationships
    else relationships
         ++ found_in (getReturnType (getTemplatedDecl method))
              default_relationship_hint
         ++ found_in_parameters (parameters (getTemplatedDecl method)).
Proof.
  unfold process_template_method.
  destruct (isDefaulted _ && negb _); [reflexivity|].
  rewrite scan_parameters_appends, find_relationships'_appends.
  now rewrite app_assoc.
Qed.

(** *** No package depends on itself *)

Definition no_self_edge (p : package) : Prop :=
  Forall (fun r => destination r <> package_id p) (relationships_ p).

Definition no_self_edges (d : diagram) : Prop := Forall no_self_edge d.

Lemma add_relationship_no_self_edge (r : relationship) (p : package) :
  destination r <> package_id p ->
  no_self_edge p -> no_self_edge (add_relationship r p).
Proof using add_relationship_adds.
  intros Hr Hp. destruct (add_relationship_adds r p) as [Hid Hin].
  unfold no_self_edge in *. rewrite Hid.
  apply List.Forall_forall. intros r' Hr'.
  destruct (Hin r' Hr') as [->|Hold]; [exact Hr|].
  now apply (proj1 (List.Forall_forall _ _) Hp).
Qed.

Lemma update_package_Forall (P : package -> Prop) (id : Z)
    (f : package -> package) (d : diagram) :
  (forall p, package_id p = id -> P p -> P (f p)) ->
  Forall P d -> Forall P (update_package id f d).
Proof.
  intros Hf. induction 1 as [|p d Hp Hd IH]; simpl; [constructor|].
  destruct (Z.eqb_spec (package_id p) id); constructor; auto.
Qed.

Lemma add_dependencies_no_self_edges (current_package_id : Z)
    (relationships : found_relationships_t) (d : diagram) :
  no_self_edges d ->
  no_self_edges (add_dependencies current_package_id relationships d).
Proof using add_relationship_adds.
  unfold add_dependencies. revert d.
  induction relationships as [|[destination_id kind] rels IH];
    intros d Hd; simpl; [exact Hd|].
  apply IH.
  destruct (Z.eqb_spec destination_id current_package_id) as [|Hne];
    simpl; [exact Hd|].
  apply update_package_Forall; [|exact Hd].
  intros p Hid Hp. apply add_relationship_no_self_edge; [|exact Hp].
  simpl. congruence.
Qed.

Lemma add_relationships_no_self_edges (namespace_context : option DeclContext)
    (relationships : found_relationships_t) (d d' : diagram) :
  no_self_edges d ->
  add_relationships namespace_context relationships d = Done d' ->
  no_self_edges d'.
Proof using add_relationship_adds.
  intros Hd. unfold add_relationships.
  destruct (_ =? 0); [discriminate|].
  destruct (get d _).
  - intros [= <-]. now apply add_dependencies_no_self_edges.
  - now intros [= <-].
Qed.

Lemma VisitNamespaceDecl_no_self_edges (ns : NamespaceDecl) (d d' : diagram) :
  no_self_edges d -> VisitNamespaceDecl ns d = Done d' -> no_self_edges d'.
Proof.
  intros Hd. unfold VisitNamespaceDecl.
  destruct (_ || _); [now intros [= <-]|].
  destruct (negb _); [discriminate|].
  destruct (_ && _); [|now intros [= <-]].
  destruct (negb _); intros [= <-]; [|exact Hd].
  unfold add_package. apply Forall_app. split; [exact Hd|].
  constructor; [|constructor]. constructor.
Qed.

Lemma visit_no_self_edges (decl : TopLevelDecl) (d d' : diagram) :
  no_self_edges d -> visit decl d = Done d' -> no_self_edges d'.
Proof using add_relationship_adds.
  intros Hd. destruct decl as [ns|f|cls]; simpl.
  - now apply VisitNamespaceDecl_no_self_edges.
  - unfold VisitFunctionDecl. destruct (fn_isInSystemHeader f).
    + now intros [= <-].
    + now apply add_relationships_no_self_edges.
  - unfold VisitCXXRecordDecl. destruct (cls_isInSystemHeader cls).
    + now intros [= <-].
    + destruct (cls_isTemplate cls); [now intros [= <-]|].
      now apply add_relationships_no_self_edges.
Qed.

(** C6: no package ever holds a relationship to its own id.  A diagram
    without such a relationship has none after [add_relationships], whatever
    the declaration and the relationships found, and none after the
    traversal of any sequence of declarations. *)
Theorem no_self_dependency (d : diagram) :
  no_self_edges d ->
  (forall namespace_context relationships d',
     add_relationships namespace_context relationships d = Done d' ->
     no_self_edges d')
  /\ (forall tu d', traverse tu d = Done d' -> no_self_edges d').
Proof using add_relationship_adds.
  intros Hd. split.
  - intros ctx rels d'. now apply add_relationships_no_self_edges.
  - intros tu. revert d Hd.
    induction tu as [|decl tu IH]; intros d Hd d'; simpl.
    + now intros [= <-].
    + destruct (visit decl d) as [d1|] eqn:Hv; [|discriminate].
      apply IH. now apply (visit_no_self_edges decl d).
Qed.

(** *** The assertion of [add_relationships] *)

Lemma add_relationships_assertion (namespace_context : option DeclContext)
    (relationships : found_relationships_t) (d : diagram) :
  add_relationships namespace_context relationships d = AssertionFailed
  <-> current_package_id_of namespace_context = 0.
Proof.
  unfold add_relationships.
  destruct (Z.eqb_spec (current_package_id_of namespace_context) 0) as [E|E].
  - tauto.
  - split; [|tauto]. now destruct (get d _).
Qed.

(** C10 (the code at the failing input): a function or a record declared at
    global scope, outside system headers, reaches [add_relationships] with
    the translation unit as its enclosing namespace context; the package id
    stays 0 and the assertion fails, whatever the types involved and the
    diagram. *)
Theorem global_scope_fails_assertion (d : diagram) :
  (forall return_type params defaulted explicitly_defaulted,
     VisitFunctionDecl
       {| fn_isInSystemHeader := false;
          getReturnType := return_type;
          parameters := params;
          isDefaulted := defaulted;
          isExplicitlyDefaulted := explicitly_defaulted;
          fn_getEnclosingNamespaceContext := Some TranslationUnit |} d
     = AssertionFailed)
  /\ (forall ms ds fs complete frs bs,
        VisitCXXRecordDecl
          {| cls_isInSystemHeader := false;
             cls_isTemplate := false;
             methods := ms;
             decls := ds;
             fields := fs;
             isCompleteDefinition := complete;
             friends := frs;
             bases := bs;
             cls_getEnclosingNamespaceContext := Some TranslationUnit |} d
        = AssertionFailed).
Proof.
  split; intros; unfold VisitFunctionDecl, VisitCXXRecordDecl; simpl;
    now apply add_relationships_assertion.
Qed.

(** *** The parser of unexposed template parameters *)

Lemma bracket_match_length (s : string) :
  forall nested_level,
    (String.length (bracket_match s nested_level) <= String.length s)%nat.
Proof.
  induction s as [|c s IH]; intros nested_level; simpl; [lia|].
  destruct (Ascii.eqb c "<"); simpl; [specialize (IH (S nested_level)); lia|].
  destruct (Ascii.eqb c ">"); simpl.
  - destruct nested_level as [|k]; simpl; [lia|]. specialize (IH k). lia.
  - specialize (IH nested_level). lia.
Qed.

Lemma ltrim_length (s : string) :
  (String.length (ltrim s) <= String.length s)%nat.
Proof.
  induction s as [|c s IH]; simpl; [lia|].
  destruct (isspace c); simpl; lia.
Qed.

Lemma parse_loop_total
    (nested : string -> option (list template_parameter)) (depth : Z)
    (it : string) :
  forall skip st,
    (forall s, (String.length s < String.length it)%nat ->
               is_Some (nested s)) ->
    is_Some (parse_loop nested depth skip it st).
Proof.
  induction it as [|c rest IH]; intros skip st Hnested; simpl; [eauto|].
  assert (Hrest : forall s, (String.length s < String.length rest)%nat ->
                            is_Some (nested s)).
  { intros s Hs. apply Hnested. simpl. lia. }
  destruct skip as [|k]; [|now apply IH].
  destruct (Ascii.eqb c "<").
  - destruct (Hnested (bracket_match rest O)) as [nested_params ->].
    { pose proof (bracket_match_length rest O). simpl. lia. }
    now apply IH.
  - destruct (Ascii.eqb c ">").
    + destruct (depth =? 0); [eauto | now apply IH].
    + destruct (Ascii.eqb c ","); now apply IH.
Qed.

Lemma parse_unexposed_template_params_fuel_total (fuel : nat) :
  forall params depth,
    (String.length params < fuel)%nat ->
    is_Some (parse_unexposed_template_params_fuel fuel params depth).
Proof.
  induction fuel as [|fuel IH]; intros params depth Hlen; [lia|]. simpl.
  destruct (parse_loop_total
              (fun s => parse_unexposed_template_params_fuel fuel s (depth + 1))
              depth (ltrim params) O
              {| ps_type := ""; ps_nested_params := []; ps_res := [] |})
    as [st ->].
  - intros s Hs. apply IH. pose proof (ltrim_length params). lia.
  - destruct (string_is_empty (ps_type st)); eauto.
Qed.

(** The parser returns on every input. *)
Lemma parse_unexposed_template_params_total (params : string) (depth : Z) :
  is_Some (parse_unexposed_template_params params depth).
Proof.
  apply parse_unexposed_template_params_fuel_total. lia.
Qed.

(** An unexposed argument as the parser builds it from the text [type]. *)
Definition parsed (type : string) (template_params : list template_parameter)
    : template_parameter :=
  unexposed_argument (ns_resolve (trim_typename type)) template_params.

(** C3 (the code at the failing input): the parse of [A<B<C,D>,E>] at depth
    0 is one top-level parameter for [A], whose first child is [B] with the
    children [C] and [D]; but it has three children, not two: the comma
    behind the closing bracket of [B] completes an argument with an empty
    name, and the nested parameters of [B], already moved from, are attached
    to it and to [E] again. *)
Theorem parse_nested_argument_then_comma :
  parse_unexposed_template_params "A<B<C,D>,E>" 0
  = Some
      [parsed "A"
         [parsed "B" [parsed "C" []; parsed "D" []];
          parsed ""
            [moved_from (parsed "C" []); moved_from (parsed "D" [])];
          parsed "E"
            [moved_from (moved_from (parsed "C" []));
             moved_from (moved_from (parsed "D" []))]]]
  /\ (exists top,
        parse_unexposed_template_params "A<B<C,D>,E>" 0 = Some [top]
        /\ length (tp_template_params top) = 3%nat).
Proof.
  assert (E : parse_unexposed_template_params "A<B<C,D>,E>" 0
              = Some
                  [parsed "A"
                     [parsed "B" [parsed "C" []; parsed "D" []];
                      parsed ""
                        [moved_from (parsed "C" []);
                         moved_from (parsed "D" [])];
                      parsed "E"
                        [moved_from (moved_from (parsed "C" []));
                         moved_from (moved_from (parsed "D" []))]]])
    by reflexivity.
  split; [exact E|].
  eexists. split; [exact E|reflexivity].
Qed.

(** *** The tokenizer of unexposed template parameters *)

(** C7 (the code at the failing inputs): the keyword [typename] given as a
    word of its own is kept, because the branch for qualified identifiers
    compares the word with [templated]; [struct] and [class] are kept as
    well when they are cut out of a longer word. *)
Theorem tokenize_keeps_keywords :
  tokenize_unexposed_template_parameter "typename T" = Some ["typename"; "T"]
  /\ tokenize_unexposed_template_parameter "(struct A)"
     = Some ["("; "struct"; "A"; ")"]
  /\ tokenize_unexposed_template_parameter "class,T"
     = Some ["class"; ","; "T"].
Proof. repeat split; reflexivity. Qed.

(** *** The sequence generator: calls and returns *)

Lemma append_nonempty_neq (s t : string) :
  string_is_empty t = false -> s +:+ t <> s.
Proof.
  intros Ht E. apply (f_equal String.length) in E.
  rewrite string_length_append in E.
  destruct t; [discriminate|]. simpl in E. lia.
Qed.

Lemma return_arrow_nonempty (m_config : sequence_diagram) (m : message) :
  string_is_empty (return_arrow m_config m) = false.
Proof. reflexivity. Qed.

Lemma generate_return_cases (m_config : sequence_diagram) (m : message)
    (ostr : string) :
  (from m <> to m /\ return_type m <> "void"
   /\ generate_return m_config m ostr = ostr +:+ return_arrow m_config m)
  \/ (~ (from m <> to m /\ return_type m <> "void")
      /\ generate_return m_config m ostr = ostr).
Proof.
  unfold generate_return.
  destruct (String.eqb_spec (from m) (to m)) as [Hft|Hft];
    destruct (String.eqb_spec (return_type m) "void") as [Hrt|Hrt]; simpl.
  - right. split; [intros [H _]; exact (H Hft) | reflexivity].
  - right. split; [intros [H _]; exact (H Hft) | reflexivity].
  - right. split; [intros [_ H]; exact (H Hrt) | reflexivity].
  - left. repeat split; assumption.
Qed.

Lemma generate_return_emits (m_config : sequence_diagram) (m : message)
    (ostr : string) :
  generate_return m_config m ostr <> ostr
  <-> (from m <> to m /\ return_type m <> "void").
Proof.
  pose proof (append_nonempty_neq ostr _ (return_arrow_nonempty m_config m))
    as Hneq.
  destruct (generate_return_cases m_config m ostr) as [(Hft&Hrt&E)|(Hno&E)];
    rewrite E; split.
  - intros _. now split.
  - intros _. exact Hneq.
  - intros H. now contradiction H.
  - intros H. now contradiction Hno.
Qed.

Lemma generate_return_arrow (m_config : sequence_diagram) (m : message)
    (ostr : string) :
  generate_return m_config m ostr = ostr +:+ return_arrow m_config m
  <-> (from m <> to m /\ return_type m <> "void").
Proof.
  pose proof (append_nonempty_neq ostr _ (return_arrow_nonempty m_config m))
    as Hneq.
  destruct (generate_return_cases m_config m ostr) as [(Hft&Hrt&E)|(Hno&E)];
    rewrite E; split.
  - intros _. now split.
  - reflexivity.
  - intros H. symmetry in H. now contradiction Hneq.
  - intros H. now contradiction Hno.
Qed.

(** *** The sequence generator: entry points *)





(** *** Custom user data *)

Lemma members_lookup_set (key : string) (value : json)
    (members : list (string * json)) :
  members_lookup key (members_set key value members) = Some value.
Proof.
  induction members as [|[k v] members IH]; simpl.
  - now rewrite String.eqb_refl.
  - destruct (String.eqb k key) eqn:E; simpl; rewrite E; [reflexivity|exact IH].
Qed.

Lemma members_set_same (key : string) (value : json)
    (members : list (string * json)) :
  members_lookup key members = Some value ->
  members_set key value members = members.
Proof.
  induction members as [|[k v] members IH]; simpl; [discriminate|].
  destruct (String.eqb k key); [now intros [= ->]|].
  intros H. now rewrite IH.
Qed.

(** On a null node the walk always ends in the assignment. *)
Lemma set_path_null (path : list string) (value : json) :
  exists node, set_path path value Jnull = Assigned node.
Proof.
  induction path as [|key path [node IH]]; simpl; [eauto|].
  rewrite IH. simpl. eauto.
Qed.

(** When the walk ends in the assignment, the value is at the leaf that the
    path designates. *)
Lemma set_path_assigns (path : list string) (value : json) :
  forall node node',
    set_path path value node = Assigned node' ->
    get_path path node' = Some value.
Proof.
  induction path as [|key path IH]; intros node node'; simpl.
  - now intros [= <-].
  - destruct (negb (is_object node) && negb (empty node)); [discriminate|].
    destruct node as [| | | | |members]; try discriminate.
    + destruct (set_path path value Jnull) as [child| |] eqn:E;
        simpl; try discriminate.
      intros [= <-]. simpl. rewrite String.eqb_refl. now apply (IH Jnull).
    + destruct (set_path path value _) as [child| |] eqn:E;
        simpl; try discriminate.
      intros [= <-]. simpl. rewrite members_lookup_set. now apply (IH _ _ E).
Qed.

(** When the walk ends in the error or in the exception, the node is as it
    was before. *)
Lemma set_path_failure_unchanged (path : list string) (value : json) :
  forall node node',
    set_path path value node = NotAnObject node'
    \/ set_path path value node = TypeError node' ->
    node' = node.
Proof.
  induction path as [|key path IH]; intros node node'; simpl.
  - intros [H|H]; discriminate.
  - destruct (negb (is_object node) && negb (empty node)).
    { intros [H|H]; [now inversion H | discriminate]. }
    destruct node as [| | | | |members];
      try (intros [H|H]; [discriminate | now inversion H]).
    + destruct (set_path_null path value) as [child ->]. simpl.
      intros [H|H]; discriminate.
    + destruct (members_lookup key members) as [child|] eqn:Hk.
      * destruct (set_path path value child) as [c|c|c] eqn:E; simpl;
          intros [H|H]; try discriminate; inversion H; subst;
          f_equal; apply members_set_same;
          rewrite Hk; f_equal; symmetry; apply (IH child); eauto.
      * destruct (set_path_null path value) as [c ->]. simpl.
        intros [H|H]; discriminate.
Qed.

(** The error is returned exactly at a node that is neither an object nor
    empty and that a key is to be looked up in. *)
Lemma set_path_error_at (key : string) (path : list string) (value : json)
    (node : json) :
  is_object node = false -> empty node = false ->
  set_path (key :: path) value node = NotAnObject node.
Proof. intros Ho He. simpl. now rewrite Ho, He. Qed.

(** C9 (the code at the failing input): with an empty array as
    [config.user_data()], or as the node reached under an existing key, the
    guard lets the walk pass, since the node is empty; the lookup by key
    then throws the type error of the JSON library: no error is returned,
    and nothing is assigned. *)
Theorem add_custom_user_data_empty_array :
  add_custom_user_data [("a", "1")] (Jarray []) = Thrown (Jarray [])
  /\ add_custom_user_data [("tags.x", "1")] (Jobject [("tags", Jarray [])])
     = Thrown (Jobject [("tags", Jarray [])])
  /\ add_custom_user_data [("tags.x", "1")] (Jobject [("tags", Jnull)])
     = Returned kContinue (Jobject [("tags", Jobject [("x", Jstring "1")])])
  /\ add_custom_user_data [("tags.x", "1")] (Jobject [("tags", Jstring "t")])
     = Returned kError (Jobject [("tags", Jstring "t")]).
Proof. repeat split; reflexivity. Qed.

End Model.

(** ** Part III. The theorems at concrete inputs *)



(** The modelled string helpers on the inputs the visitor and the command
    line give them. *)
Example canonical_anonymous_namespace :
  canonical "clanguml::(anonymous namespace)::A" = "clanguml::A"
  /\ canonical "(anonymous namespace)::detail" = "::detail"
  /\ canonical "clanguml::t30001::A" = "clanguml::t30001::A".
Proof. repeat split; reflexivity. Qed.

Example split_key_path :
  split "a.b.c" "." = ["a"; "b"; "c"] /\ split "a" "." = ["a"]
  /\ split "typename T" " " = ["typename"; "T"].
Proof. repeat split; reflexivity. Qed.

Example trim_spaces : trim "  const T& " = "const T&".
Proof. reflexivity. Qed.


(** Concrete stand-ins for the services the model is parameterised by. *)
Definition include_all : string -> bool := fun _ => true.
Definition include_all_packages : package -> bool := fun _ => true.
Definition ns_relative_id : list string -> string -> string :=
  fun _ name => name.

Definition plain_config (entries : list source_location) : sequence_diagram :=
  {| using_namespace := []; puml_before := []; puml_after := [];
     start_from := entries |}.

(** [find_relationships] on a pointer to an enum, and on an enum with the
    hint of a reference: the relationship is an association, not a
    dependency. *)
Lemma enum_relationship_is_the_hint :
  find_relationships fnv1a include_all (PointerType (EnumType 42)) []
    kDependency
  = (false, [(42, kAssociation)])
  /\ find_relationships fnv1a include_all (EnumType 42) [] kAssociation
     = (false, [(42, kAssociation)])
  /\ ~ (forall decl_id relationships hint,
          snd (find_relationships fnv1a include_all (EnumType decl_id)
                 relationships hint)
          = relationships ++ [(decl_id, kDependency)]).
Proof.
  repeat split; try reflexivity.
  intros H. specialize (H 42 [] kAssociation). discriminate H.
Qed.

(** A call from a participant to itself that returns [int]. *)
Definition self_call : message :=
  {| from := "A"; to := "A"; to_usr := "c:@S@A@F@b#"; message_name := "b";
     return_type := "int" |}.

Lemma self_call_has_no_return_arrow :
  return_type self_call <> "void"
  /\ generate_return ns_relative_id (plain_config []) self_call "" = ""
  /\ ~ (forall m ostr,
          generate_return ns_relative_id (plain_config []) m ostr <> ostr
          <-> return_type m <> "void").
Proof.
  assert (Hrt : return_type self_call <> "void") by discriminate.
  repeat split; try assumption; try reflexivity.
  intros H. apply (proj2 (H self_call "") Hrt). reflexivity.
Qed.

(** The model of a translation unit in which [tmain()] calls [A::a()]. *)
Definition tmain_sequences : gmap string activity :=
  {[ "tmain()" :=
       {| messages :=
            [ {| from := "tmain()"; to := "A"; to_usr := "A::a()";
                 message_name := "a"; return_type := "int" |} ] |} ]}.


Definition empty_diagram : string :=
  "@startuml" +:+ endl +:+ "@enduml" +:+ endl.


(** Two packages and a record of the first with a member of its own package
    and a pointer into the second. *)
Definition ns_A : NamespaceDecl :=
  {| getQualifiedNameAsString := "clanguml::A"; isAnonymousNamespace := false;
     isInline := false; ns_deprecated := false; ns_skip := false |}.

Definition ns_B : NamespaceDecl :=
  {| getQualifiedNameAsString := "clanguml::B"; isAnonymousNamespace := false;
     isInline := false; ns_deprecated := false; ns_skip := false |}.

Definition record_in (ns : NamespaceDecl) : QualType :=
  RecordType (Some (Namespace ns)).

Definition cls_in_A : CXXRecordDecl :=
  {| cls_isInSystemHeader := false; cls_isTemplate := false; methods := [];
     decls := [];
     fields := [Some (record_in ns_A); Some (PointerType (record_in ns_B))];
     isCompleteDefinition := true; friends := []; bases := [];
     cls_getEnclosingNamespaceContext := Some (Namespace ns_A) |}.

(** A stand-in for [package::add_relationship]: a relationship the package
    does not hold yet is put behind the others. *)
Definition append_relationship (r : relationship) (p : package) : package :=
  if existsb (relationship_eqb r) (relationships_ p) then p
  else {| package_name := package_name p;
          package_id := package_id p;
          package_deprecated := package_deprecated p;
          relationships_ := relationships_ p ++ [r] |}.

Lemma append_relationship_adds (r : relationship) (p : package) :
  package_id (append_relationship r p) = package_id p
  /\ (forall r', In r' (relationships_ (append_relationship r p)) ->
                 r' = r \/ In r' (relationships_ p)).
Proof.
  unfold append_relationship.
  destruct (existsb _ _); simpl; split; auto.
  intros r' Hr'. apply in_app_or in Hr' as [H|[H|[]]]; auto.
Qed.

Definition packages_A_B : list package :=
  [ {| package_name := "clanguml::A"; package_id := 1810004612254002273;
       package_deprecated := false;
       relationships_ :=
         [ {| type_ := kDependency; destination := 1810004749692955800 |} ] |};
    {| package_name := "clanguml::B"; package_id := 1810004749692955800;
       package_deprecated := false; relationships_ := [] |} ].

(** The traversal of the two namespaces and the record: the first package
    depends on the second, and not on itself. *)
Lemma no_self_dependency_witness :
  (forall r p,
     package_id (append_relationship r p) = package_id p
     /\ (forall r', In r' (relationships_ (append_relationship r p)) ->
                    r' = r \/ In r' (relationships_ p)))
  /\ no_self_edges []
  /\ traverse fnv1a include_all append_relationship include_all_packages
       [NamespaceD ns_A; NamespaceD ns_B; CXXRecordD cls_in_A] []
     = Done packages_A_B
  /\ no_self_edges packages_A_B.
Proof.
  assert (H0 : no_self_edges []) by constructor.
  assert (Ht : traverse fnv1a include_all append_relationship
                 include_all_packages
                 [NamespaceD ns_A; NamespaceD ns_B; CXXRecordD cls_in_A] []
               = Done packages_A_B) by (vm_compute; reflexivity).
  split; [exact append_relationship_adds|].
  split; [exact H0|]. split; [exact Ht|].
  exact (proj2 (no_self_dependency fnv1a include_all append_relationship
                  append_relationship_adds include_all_packages [] H0)
           _ _ Ht).
Defined.

(** ** Part IV. More of the package visitor *)

Abbreviation found_relationships_t := (list (Z * relationship_t)).
Abbreviation found := (bool * found_relationships_t)%type.
Abbreviation diagram := (list package).

(** The ids of the enum declarations that occur in a type. *)
Fixpoint enum_ids (type : QualType) : list Z :=
  match type with
  | VoidType | BuiltinType | RecordType _ => []
  | PointerType t | RValueReferenceType t | LValueReferenceType t
  | ArrayType t => enum_ids t
  | EnumType decl_id => [decl_id]
  | TemplateSpecializationType aliased args =>
      match aliased with Some t => enum_ids t | None => [] end
      ++ flat_map
           (fun a => match a with TypeArg t => enum_ids t | _ => [] end) args
  | FunctionProtoType result param_types =>
      enum_ids result ++ flat_map enum_ids param_types
  end.

Lemma type_size_ind (P : QualType -> Prop) :
  (forall t, (forall t', (type_size t' < type_size t)%nat -> P t') -> P t) ->
  forall t, P t.
Proof.
  intros Hstep t.
  assert (H : forall n t, (type_size t < n)%nat -> P t).
  { induction n as [|n IH]; intros t' Ht'; [lia|].
    apply Hstep. intros t'' Ht''. apply IH. lia. }
  apply (H (S (type_size t))). lia.
Qed.

Lemma type_size_argument (t : QualType) (aliased : option QualType)
    (args : list (TemplateArgument QualType)) :
  In (TypeArg t) args ->
  (type_size t < type_size (TemplateSpecializationType aliased args))%nat.
Proof.
  intros Hin. rewrite type_size_specialization.
  pose proof (list_sum_In argument_size _ _ Hin) as Hle. simpl in Hle. lia.
Qed.

Lemma type_size_param_type (p result : QualType) (param_types : list QualType) :
  In p param_types ->
  (type_size p < type_size (FunctionProtoType result param_types))%nat.
Proof.
  intros Hin. simpl.
  pose proof (list_sum_In type_size _ _ Hin). lia.
Qed.

Lemma flat_map_Forall {A B : Type} (Q : B -> Prop) (f : A -> list B)
    (x : A) (l : list A) :
  In x l -> Forall Q (flat_map f l) -> Forall Q (f x).
Proof.
  intros Hin Hall. apply List.Forall_forall. intros y Hy.
  apply (proj1 (List.Forall_forall _ _) Hall).
  apply in_flat_map. eauto.
Qed.

Section FoundIn.

#[local] Set Default Proof Using "Type".

Variable hash : string -> Z.
Variable should_include : string -> bool.

(** A property [P hint entry] of the entries found under a hint, and a
    property [E] of the enum declarations met. *)
Variable P : relationship_t -> Z * relationship_t -> Prop.
Variable E : Z -> Prop.

Hypothesis P_enum : forall decl_id hint, E decl_id -> P hint (decl_id, hint).
Hypothesis P_record :
  forall name hint,
    should_include name = true -> P hint (to_id hash name, hint).
Hypothesis P_association : forall hint e, P kAssociation e -> P hint e.
Hypothesis P_aggregation : forall hint e, P kAggregation e -> P hint e.
Hypothesis P_dependency : forall hint e, P kDependency e -> P hint e.

Definition all_found (t : QualType) : Prop :=
  Forall E (enum_ids t) ->
  forall hint, Forall (P hint) (found_in hash should_include t hint).

Lemma find_relationships_found (t : QualType) (st : found)
    (hint : relationship_t) :
  snd (find_relationships hash should_include t (snd st) hint)
  = snd st ++ found_in hash should_include t hint.
Proof.
  unfold found_in.
  now rewrite (find_relationships_appends hash should_include t (snd st) hint).
Qed.

Lemma scan_param_types_all (hint : relationship_t) (params : list QualType) :
  (forall p, In p params -> all_found p) ->
  Forall E (flat_map enum_ids params) ->
  forall st : found,
    Forall (P hint) (snd st) ->
    Forall (P hint)
      (snd (scan_param_types (find_relationships hash should_include)
              params st)).
Proof using P_dependency.
  induction params as [|p params IH]; intros Hall HE st Hst; simpl;
    [exact Hst|].
  simpl in HE. apply Forall_app in HE as [HEp HEps].
  apply IH; [intros q Hq; apply Hall; now right | exact HEps |].
  rewrite find_relationships_found. apply Forall_app. split; [exact Hst|].
  eapply List.Forall_impl; [|apply (Hall p (or_introl eq_refl) HEp kDependency)].
  intros e. apply P_dependency.
Qed.

Lemma scan_arguments_all (hint : relationship_t)
    (args : list (TemplateArgument QualType)) :
  (forall t, In (TypeArg t) args -> all_found t) ->
  (forall result param_types p,
     In (TypeArg (FunctionProtoType result param_types)) args ->
     In p param_types -> all_found p) ->
  Forall E (flat_map
              (fun a => match a with TypeArg t => enum_ids t | _ => [] end)
              args) ->
  forall st : found,
    Forall (P hint) (snd st) ->
    Forall (P hint)
      (snd (scan_arguments (find_relationships hash should_include) hint
              args st)).
Proof using P_dependency.
  induction args as [|a args IH]; intros Hargs Hparams HE st Hst;
    [exact Hst|].
  rewrite scan_arguments_cons.
  simpl in HE. apply Forall_app in HE as [HEa HEargs].
  apply IH.
  - intros t Ht. apply Hargs. now right.
  - intros r ps p Ha Hp. apply (Hparams r ps p); [now right | exact Hp].
  - exact HEargs.
  - destruct a as [| | | | | |t]; simpl; try exact Hst.
    destruct t as [| |t|t|t|t|id|aliased' args'|r ps|ctx];
      try (rewrite find_relationships_found; apply Forall_app;
           split; [exact Hst|];
           apply (Hargs _ (or_introl eq_refl) HEa hint)).
    apply scan_param_types_all; [| |exact Hst].
    + intros p Hp. apply (Hparams r ps p); [now left | exact Hp].
    + simpl in HEa. now apply Forall_app in HEa as [_ HEa].
Qed.

Lemma found_in_wrapped (t : QualType) (inner : relationship_t)
    (hint : relationship_t) :
  (forall e, P inner e -> P hint e) ->
  all_found t -> Forall E (enum_ids t) ->
  Forall (P hint) (found_in hash should_include t inner).
Proof.
  intros Hmono Ht HE. eapply List.Forall_impl; [exact Hmono|]. now apply Ht.
Qed.

Lemma found_in_all (t : QualType) : all_found t.
Proof using P_enum P_record P_association P_aggregation P_dependency.
  induction t as [t IH] using type_size_ind.
  intros HE hint. unfold found_in.
  destruct t as [| |t|t|t|t|id|aliased args|r ps|ctx]; simpl in *;
    try (constructor; fail).
  - destruct (isVoidType t); simpl; [constructor|].
    apply (found_in_wrapped t kAssociation hint);
      [apply P_association | apply IH; lia | exact HE].
  - apply (found_in_wrapped t kAggregation hint);
      [apply P_aggregation | apply IH; lia | exact HE].
  - apply (found_in_wrapped t kAssociation hint);
      [apply P_association | apply IH; lia | exact HE].
  - apply (found_in_wrapped t kAggregation hint);
      [apply P_aggregation | apply IH; lia | exact HE].
  - constructor; [|constructor]. apply P_enum. now inversion HE.
  - apply Forall_app in HE as [HEaliased HEargs].
    destruct aliased as [aliased|].
    + destruct aliased as [| |t|t|t|t|id|aliased' args'|r ps|ctx];
        try (constructor; fail).
      simpl in HEaliased. apply Forall_app in HEaliased as [_ HEargs'].
      apply scan_arguments_all; [| |exact HEargs'|constructor].
      * intros t Ht. apply IH.
        pose proof (type_size_argument t aliased' args' Ht). lia.
      * intros r ps p Ha Hp. apply IH.
        pose proof (type_size_argument _ aliased' args' Ha).
        pose proof (type_size_param_type p r ps Hp). lia.
    + apply scan_arguments_all; [| |exact HEargs|constructor].
      * intros t Ht. apply IH.
        pose proof (type_size_argument t None args Ht). simpl in *. lia.
      * intros r ps p Ha Hp. apply IH.
        pose proof (type_size_argument _ None args Ha).
        pose proof (type_size_param_type p r ps Hp). simpl in *. lia.
  - destruct ctx as [[|ns]|]; try (constructor; fail).
    destruct (should_include _) eqn:Hinc; simpl; [|constructor].
    constructor; [|constructor]. now apply P_record.
Qed.

End FoundIn.

(** X1: whatever the type and the hint, every relationship that
    [find_relationships] adds has the kind of the hint or one of the three
    kinds the function sets itself: association, aggregation, dependency. *)
Theorem found_kinds (hash : string -> Z) (should_include : string -> bool)
    (type : QualType) (hint : relationship_t) :
  Forall
    (fun e => snd e = hint \/ snd e = kAssociation \/ snd e = kAggregation
              \/ snd e = kDependency)
    (found_in hash should_include type hint).
Proof.
  apply (found_in_all hash should_include
           (fun h e => snd e = h \/ snd e = kAssociation
                       \/ snd e = kAggregation \/ snd e = kDependency)
           (fun _ => True)); simpl; auto.
  - intros h e [->|H]; auto.
  - intros h e [->|H]; auto.
  - intros h e [->|H]; auto.
  - apply List.Forall_forall. auto.
Qed.


Section ClassDeclaration.

#[local] Set Default Proof Using "Type".

Variable hash : string -> Z.
Variable should_include : string -> bool.

(** What each member of a record contributes, read without the vector. *)
Definition found_in_method (method : FunctionDecl) : found_relationships_t :=
  found_in hash should_include (getReturnType method) default_relationship_hint
  ++ found_in_parameters hash should_include (parameters method).

Definition found_in_template_method (method : FunctionTemplateDecl)
    : found_relationships_t :=
  if isDefaulted (getTemplatedDecl method)
     && negb (isExplicitlyDefaulted (getTemplatedDecl method))
  then []
  else found_in_method (getTemplatedDecl method).

Definition found_in_friend (friend_declaration : FriendDecl)
    : found_relationships_t :=
  match getFriendDecl friend_declaration, getFriendType friend_declaration with
  | None, Some friend_type =>
      found_in hash should_include friend_type default_relationship_hint
  | _, _ => []
  end.

Definition found_in_record (cls : CXXRecordDecl) : found_relationships_t :=
  flat_map
    (fun method =>
       match method with Some m => found_in_method m | None => [] end)
    (methods cls)
  ++ flat_map
       (fun decl =>
          match decl with
          | FunctionTemplate method_template =>
              found_in_template_method method_template
          | _ => []
          end)
       (decls cls)
  ++ flat_map
       (fun field =>
          match field with
          | Some type => found_in hash should_include type kDependency
          | None => []
          end)
       (fields cls)
  ++ flat_map
       (fun decl =>
          match decl with
          | Var true type => found_in hash should_include type kDependency
          | _ => []
          end)
       (decls cls)
  ++ (if isCompleteDefinition cls
      then flat_map
             (fun friend_declaration =>
                match friend_declaration with
                | Some f => found_in_friend f
                | None => []
                end)
             (friends cls)
      else [])
  ++ flat_map
       (fun base => found_in hash should_include base default_relationship_hint)
       (bases cls).

Lemma fold_left_appends {A : Type}
    (f : found_relationships_t -> A -> found_relationships_t)
    (g : A -> found_relationships_t) (l : list A) :
  (forall rels x, f rels x = rels ++ g x) ->
  forall rels, fold_left f l rels = rels ++ flat_map g l.
Proof.
  intros Hf. induction l as [|x l IH]; intros rels; simpl.
  - now rewrite app_nil_r.
  - rewrite IH, Hf. now rewrite app_assoc.
Qed.

Lemma process_method_appends (method : FunctionDecl)
    (relationships : found_relationships_t) :
  process_method hash should_include method relationships
  = relationships ++ found_in_method method.
Proof.
  unfold process_method, found_in_method.
  rewrite scan_parameters_appends, find_relationships'_appends.
  now rewrite app_assoc.
Qed.

Lemma process_template_method_appends (method : FunctionTemplateDecl)
    (relationships : found_relationships_t) :
  process_template_method hash should_include method relationships
  = relationships ++ found_in_template_method method.
Proof.
  unfold process_template_method, found_in_template_method, found_in_method.
  destruct (isDefaulted _ && negb _); [now rewrite app_nil_r|].
  rewrite scan_parameters_appends, find_relationships'_appends.
  now rewrite app_assoc.
Qed.

Lemma process_friend_appends (friend_declaration : FriendDecl)
    (relationships : found_relationships_t) :
  process_friend hash should_include friend_declaration relationships
  = relationships ++ found_in_friend friend_declaration.
Proof.
  unfold process_friend, found_in_friend.
  destruct (getFriendDecl _); [now rewrite app_nil_r|].
  destruct (getFriendType _); [|now rewrite app_nil_r].
  apply find_relationships'_appends.
Qed.

(** X3: the relationships that the visit of a record finds are put behind
    those already in the vector, member kind by member kind: methods,
    template methods, fields, static fields, friends (of a complete
    definition only), and the bases last; null members, friends given by a
    declaration and implicitly defaulted template methods contribute
    nothing. *)
Theorem process_class_declaration_appends (cls : CXXRecordDecl)
    (relationships : found_relationships_t) :
  process_class_declaration hash should_include cls relationships
  = relationships ++ found_in_record cls.
Proof.
  unfold process_class_declaration, process_class_bases,
    process_class_children, found_in_record.
  rewrite (fold_left_appends _
             (fun base =>
                found_in hash should_include base default_relationship_hint))
    by (intros; apply find_relationships'_appends).
  assert (Hfriends :
            forall rels,
              (if isCompleteDefinition cls
               then fold_left
                      (fun rels friend_declaration =>
                         match friend_declaration with
                         | Some f =>
                             process_friend hash should_include f rels
                         | None => rels
                         end)
                      (friends cls) rels
               else rels)
              = rels
                ++ (if isCompleteDefinition cls
                    then flat_map
                           (fun friend_declaration =>
                              match friend_declaration with
                              | Some f => found_in_friend f
                              | None => []
                              end)
                           (friends cls)
                    else [])).
  { intros rels. destruct (isCompleteDefinition cls);
      [|now rewrite app_nil_r].
    apply fold_left_appends.
    intros rels' [f|];
      [apply process_friend_appends | now rewrite app_nil_r]. }
  rewrite Hfriends.
  rewrite (fold_left_appends _
             (fun decl =>
                match decl with
                | Var true type =>
                    found_in hash should_include type kDependency
                | _ => []
                end))
    by (intros rels [m|[|] t|]; try (now rewrite app_nil_r);
        apply find_relationships'_appends).
  rewrite (fold_left_appends _
             (fun field =>
                match field with
                | Some type => found_in hash should_include type kDependency
                | None => []
                end))
    by (intros rels [t|];
        [apply find_relationships'_appends | now rewrite app_nil_r]).
  rewrite (fold_left_appends _
             (fun decl =>
                match decl with
                | FunctionTemplate method_template =>
                    found_in_template_method method_template
                | _ => []
                end))
    by (intros rels [m|b t|]; try (now rewrite app_nil_r);
        apply process_template_method_appends).
  rewrite (fold_left_appends _
             (fun method =>
                match method with
                | Some m => found_in_method m
                | None => []
                end))
    by (intros rels [m|];
        [apply process_method_appends | now rewrite app_nil_r]).
  now rewrite <- !app_assoc.
Qed.

End ClassDeclaration.

Section Packages.

#[local] Set Default Proof Using "Type".

Variable hash : string -> Z.
Variable should_include : string -> bool.
Variable add_relationship : relationship -> package -> package.
Hypothesis add_relationship_adds :
  forall r p,
    package_id (add_relationship r p) = package_id p
    /\ (forall r', In r' (relationships_ (add_relationship r p)) ->
                   r' = r \/ In r' (relationships_ p)).
Variable should_include_package : package -> bool.

(** The ids of the packages of a diagram, in the order they were added. *)
Definition package_ids (d : diagram) : list Z := map package_id d.

Lemma update_package_ids (id : Z) (f : package -> package) (d : diagram) :
  (forall p, package_id (f p) = package_id p) ->
  package_ids (update_package id f d) = package_ids d.
Proof.
  intros Hf. induction d as [|p d IH]; simpl; [reflexivity|].
  destruct (package_id p =? id); simpl; [now rewrite Hf|now rewrite IH].
Qed.

Lemma add_dependencies_ids (current_package_id : Z)
    (relationships : found_relationships_t) (d : diagram) :
  package_ids (add_dependencies add_relationship current_package_id
                 relationships d)
  = package_ids d.
Proof using add_relationship_adds.
  unfold add_dependencies. revert d.
  induction relationships as [|dependency rels IH]; intros d; simpl;
    [reflexivity|].
  rewrite IH. destruct (negb _); [|reflexivity].
  apply update_package_ids. intros p. apply add_relationship_adds.
Qed.

Lemma add_relationships_ids (namespace_context : option DeclContext)
    (relationships : found_relationships_t) (d d' : diagram) :
  add_relationships hash add_relationship namespace_context relationships d
  = Done d' ->
  package_ids d' = package_ids d.
Proof using add_relationship_adds.
  unfold add_relationships. destruct (_ =? 0); [discriminate|].
  destruct (get d _); intros [= <-]; [|reflexivity].
  apply add_dependencies_ids.
Qed.

Lemma VisitFunctionDecl_ids (f : FunctionDecl) (d d' : diagram) :
  VisitFunctionDecl hash should_include add_relationship f d = Done d' ->
  package_ids d' = package_ids d.
Proof using add_relationship_adds.
  unfold VisitFunctionDecl.
  destruct (fn_isInSystemHeader f); [now intros [= <-]|].
  apply add_relationships_ids.
Qed.

Lemma VisitCXXRecordDecl_ids (cls : CXXRecordDecl) (d d' : diagram) :
  VisitCXXRecordDecl hash should_include add_relationship cls d = Done d' ->
  package_ids d' = package_ids d.
Proof using add_relationship_adds.
  unfold VisitCXXRecordDecl.
  destruct (cls_isInSystemHeader cls); [now intros [= <-]|].
  destruct (cls_isTemplate cls); [now intros [= <-]|].
  apply add_relationships_ids.
Qed.

(** X4: the visit of a function or of a record never adds, removes or
    reorders packages: when it returns, the diagram holds the packages with
    the same ids as before. *)
Theorem visits_keep_the_packages (d d' : diagram) :
  (forall f,
     VisitFunctionDecl hash should_include add_relationship f d = Done d' ->
     package_ids d' = package_ids d)
  /\ (forall cls,
        VisitCXXRecordDecl hash should_include add_relationship cls d
        = Done d' ->
        package_ids d' = package_ids d).
Proof using add_relationship_adds.
  split; intros x; [apply VisitFunctionDecl_ids|apply VisitCXXRecordDecl_ids].
Qed.

Lemma get_None_not_in (d : diagram) (id : Z) :
  get d id = None -> ~ In id (package_ids d).
Proof.
  unfold get. induction d as [|p d IH]; simpl; [tauto|].
  destruct (Z.eqb_spec (package_id p) id); [discriminate|].
  intros H [Heq|Hin]; [contradiction | now apply IH].
Qed.

(** What the visit of a namespace does to the ids: nothing, or one new id
    of a namespace that is neither anonymous nor inline nor skipped. *)
Lemma VisitNamespaceDecl_ids (ns : NamespaceDecl) (d d' : diagram) :
  VisitNamespaceDecl hash should_include_package ns d = Done d' ->
  d' = d
  \/ (exists p,
        d' = d ++ [p]
        /\ relationships_ p = []
        /\ package_id p = to_id hash (getQualifiedNameAsString ns)
        /\ 0 < package_id p
        /\ ~ In (package_id p) (package_ids d)
        /\ isAnonymousNamespace ns = false
        /\ isInline ns = false
        /\ ns_skip ns = false
        /\ should_include_package
             {| package_name := canonical (getQualifiedNameAsString ns);
                package_id := package_id p;
                package_deprecated := false;
                relationships_ := [] |} = true).
Proof.
  unfold VisitNamespaceDecl.
  destruct (isAnonymousNamespace ns) eqn:Ha; simpl; [intros [= <-]; auto|].
  destruct (isInline ns) eqn:Hi; simpl; [intros [= <-]; auto|].
  destruct (Z.ltb_spec 0 (to_id hash (getQualifiedNameAsString ns)))
    as [Hpos|Hneg]; simpl; [|discriminate].
  destruct (should_include_package _) eqn:Hinc; simpl;
    [|intros [= <-]; auto].
  destruct (get d _) eqn:Hget; simpl; [intros [= <-]; auto|].
  destruct (ns_skip ns) eqn:Hs; simpl; intros [= <-]; [auto|].
  right. eexists. split; [reflexivity|]. simpl.
  repeat split; auto. now apply get_None_not_in.
Qed.

Lemma visit_ids (decl : TopLevelDecl) (d d' : diagram) :
  visit hash should_include add_relationship should_include_package decl d
  = Done d' ->
  package_ids d' = package_ids d
  \/ (exists ns id,
        decl = NamespaceD ns
        /\ package_ids d' = package_ids d ++ [id]
        /\ id = to_id hash (getQualifiedNameAsString ns)
        /\ 0 < id /\ ~ In id (package_ids d)
        /\ isAnonymousNamespace ns = false /\ isInline ns = false
        /\ ns_skip ns = false).
Proof using add_relationship_adds.
  destruct decl as [ns|f|cls]; simpl; intros Hv.
  - apply VisitNamespaceDecl_ids in Hv
      as [->|(p & -> & _ & Hid & Hpos & Hnew & Ha & Hi & Hs & _)];
      [now left|].
    right. exists ns, (package_id p). unfold package_ids.
    rewrite map_app. simpl. repeat split; auto.
  - left. now apply (VisitFunctionDecl_ids f).
  - left. now apply (VisitCXXRecordDecl_ids cls).
Qed.

(** Where a package id comes from: a namespace declaration of the
    translation unit that is neither anonymous nor inline nor skipped. *)
Definition from_namespace_of (tu : list TopLevelDecl) (id : Z) : Prop :=
  0 < id
  /\ exists ns,
       In (NamespaceD ns) tu
       /\ id = to_id hash (getQualifiedNameAsString ns)
       /\ isAnonymousNamespace ns = false /\ isInline ns = false
       /\ ns_skip ns = false.

Lemma traverse_ids (tu : list TopLevelDecl) :
  forall d d',
    traverse hash should_include add_relationship should_include_package tu d
    = Done d' ->
    exists new,
      package_ids d' = package_ids d ++ new
      /\ List.NoDup new
      /\ (forall id, In id new -> ~ In id (package_ids d))
      /\ Forall (from_namespace_of tu) new.
Proof using add_relationship_adds.
  induction tu as [|decl tu IH]; intros d d'; simpl.
  - intros [= <-]. exists []. rewrite app_nil_r.
    repeat split; auto; constructor.
  - destruct (visit _ _ _ _ decl d) as [d1|] eqn:Hv; [|discriminate].
    intros Ht. destruct (IH d1 d' Ht) as (new & Hids & Hnd & Hfresh & Hfrom).
    assert (Hweak : Forall (from_namespace_of (decl :: tu)) new).
    { eapply List.Forall_impl; [|exact Hfrom].
      intros id (Hpos & ns & Hin & Hrest). split; [exact Hpos|].
      exists ns. split; [now right | exact Hrest]. }
    apply visit_ids in Hv
      as [Hsame|(ns & id & -> & Hadd & Hid & Hpos & Hnew & Ha & Hi & Hs)].
    + exists new. rewrite Hids, Hsame. repeat split; auto.
      intros id Hin. rewrite <- Hsame. now apply Hfresh.
    + exists (id :: new). rewrite Hids, Hadd, <- app_assoc. simpl.
      repeat split; auto.
      * constructor; [|exact Hnd].
        intros Hin. apply (Hfresh id Hin). rewrite Hadd.
        apply in_or_app. right. now left.
      * intros id' [<-|Hin]; [exact Hnew|].
        intros Hold. apply (Hfresh id' Hin). rewrite Hadd.
        apply in_or_app. now left.
      * constructor; [|exact Hweak].
        split; [exact Hpos|]. exists ns. repeat split; auto. now left.
Qed.

(** X5: after the traversal of a translation unit from the empty diagram,
    no two packages have the same id: a namespace that is declared again,
    or another namespace with the same canonical name, adds no second
    package. *)
Theorem traverse_unique_ids (tu : list TopLevelDecl) (d' : diagram) :
  traverse hash should_include add_relationship should_include_package tu []
  = Done d' ->
  List.NoDup (package_ids d').
Proof using add_relationship_adds.
  intros Ht. destruct (traverse_ids tu [] d' Ht) as (new & -> & Hnd & _).
  exact Hnd.
Qed.

(** X6: after the traversal from the empty diagram, every package has a
    positive id, and this id is the id of a namespace declaration of the
    translation unit that is neither anonymous, nor inline, nor marked to
    be skipped. *)
Theorem traverse_packages_are_namespaces (tu : list TopLevelDecl)
    (d' : diagram) :
  traverse hash should_include add_relationship should_include_package tu []
  = Done d' ->
  Forall (from_namespace_of tu) (package_ids d').
Proof using add_relationship_adds.
  intros Ht. destruct (traverse_ids tu [] d' Ht) as (new & -> & _ & _ & H).
  exact H.
Qed.

(** Every relationship of every package is a dependency. *)
Definition only_dependencies (d : diagram) : Prop :=
  Forall
    (fun p => Forall (fun r => type_ r = kDependency) (relationships_ p)) d.

Lemma add_dependencies_only_dependencies (current_package_id : Z)
    (relationships : found_relationships_t) (d : diagram) :
  only_dependencies d ->
  only_dependencies
    (add_dependencies add_relationship current_package_id relationships d).
Proof using add_relationship_adds.
  unfold add_dependencies. revert d.
  induction relationships as [|dependency rels IH]; intros d Hd; simpl;
    [exact Hd|].
  apply IH. destruct (negb _); [|exact Hd].
  apply update_package_Forall; [|exact Hd].
  intros p _ Hp. apply List.Forall_forall. intros r' Hr'.
  destruct (proj2 (add_relationship_adds _ p) r' Hr') as [->|Hold];
    [reflexivity|].
  now apply (proj1 (List.Forall_forall _ _) Hp).
Qed.

Lemma visit_only_dependencies (decl : TopLevelDecl) (d d' : diagram) :
  only_dependencies d ->
  visit hash should_include add_relationship should_include_package decl d
  = Done d' ->
  only_dependencies d'.
Proof using add_relationship_adds.
  intros Hd.
  assert (Hadd : forall ctx rels,
             add_relationships hash add_relationship ctx rels d = Done d' ->
             only_dependencies d').
  { intros ctx rels. unfold add_relationships.
    destruct (_ =? 0); [discriminate|].
    destruct (get d _); intros [= <-]; [|exact Hd].
    now apply add_dependencies_only_dependencies. }
  destruct decl as [ns|f|cls]; simpl.
  - intros Hv. apply VisitNamespaceDecl_ids in Hv
      as [->|(p & -> & Hrels & _)]; [exact Hd|].
    apply Forall_app. split; [exact Hd|].
    constructor; [|constructor]. rewrite Hrels. constructor.
  - unfold VisitFunctionDecl.
    destruct (fn_isInSystemHeader f); [now intros [= <-]|]. apply Hadd.
  - unfold VisitCXXRecordDecl.
    destruct (cls_isInSystemHeader cls); [now intros [= <-]|].
    destruct (cls_isTemplate cls); [now intros [= <-]|]. apply Hadd.
Qed.

(** X7: whatever kinds [find_relationships] found (association for a
    pointer, aggregation for an array, ...), the packages only ever hold
    relationships of kind dependency: the traversal keeps this of any
    diagram, so every relationship of every package is a dependency after
    a traversal from the empty diagram. *)
Theorem traverse_only_dependencies (tu : list TopLevelDecl) (d d' : diagram) :
  only_dependencies d ->
  traverse hash should_include add_relationship should_include_package tu d
  = Done d' ->
  only_dependencies d'.
Proof using add_relationship_adds.
  revert d. induction tu as [|decl tu IH]; intros d Hd; simpl.
  - now intros [= <-].
  - destruct (visit _ _ _ _ decl d) as [d1|] eqn:Hv; [|discriminate].
    apply IH. now apply (visit_only_dependencies decl d).
Qed.

End Packages.

(** ** Part V. More of the tokenizer (clang_utils.cc) *)

Definition is_type_parameter (t : string) : bool :=
  String.prefix "type-parameter-" t.

Definition is_qualifier (q : string) : bool :=
  String.eqb q "&" || String.eqb q "&&" || String.eqb q "const&".

Definition is_bracket (b : string) : bool :=
  String.eqb b "(" || String.eqb b ")" || String.eqb b "["
  || String.eqb b "]".

(** [None] stands for the [std::out_of_range] of [t.at(0)]. *)
Definition is_identifier (t : string) : option bool :=
  match t with
  | EmptyString => None
  | String c0 _ =>
      Some (isalpha c0 && string_forallb is_identifier_character t)
  end.

(** The operands are evaluated from left to right, and only as far as
    needed. *)
Definition is_type_token (t : string) : option bool :=
  if is_type_parameter t then Some true
  else
    match is_identifier t with
    | None => None
    | Some false => Some false
    | Some true => Some (negb (is_qualifier t) && negb (is_bracket t))
    end.

Lemma string_forallb_impl (p q : ascii -> bool) (s : string) :
  (forall c, p c = true -> q c = true) ->
  string_forallb p s = true -> string_forallb q s = true.
Proof.
  intros Hpq. induction s as [|c s IH]; simpl; [reflexivity|].
  intros H. apply andb_prop in H as [Hc Hs].
  now rewrite (Hpq c Hc), IH.
Qed.

Lemma string_forallb_append (p : ascii -> bool) (s t : string) :
  string_forallb p (s +:+ t) = string_forallb p s && string_forallb p t.
Proof.
  induction s as [|c s IH]; simpl; [reflexivity|].
  now rewrite IH, andb_assoc.
Qed.

Lemma prefix_append (p s : string) :
  String.prefix p s = true -> exists rest, s = p +:+ rest.
Proof.
  revert s. induction p as [|c p IH]; intros s; [exists s; reflexivity|].
  destruct s as [|d s]; simpl; [discriminate|].
  destruct (ascii_dec c d) as [->|]; [|discriminate].
  intros H. destruct (IH s H) as [rest ->]. eauto.
Qed.

Lemma identifier_characters_only (t : string) :
  string_forallb is_identifier_character t = true ->
  is_qualifier t = false /\ is_bracket t = false.
Proof.
  intros H. unfold is_qualifier, is_bracket.
  repeat match goal with
         | |- context [String.eqb t ?b] =>
             destruct (String.eqb_spec t b) as [E|_];
             [rewrite E in H; vm_compute in H; discriminate H|]
         end.
  now split.
Qed.

(** X8: [is_type_token] accepts exactly the type parameters and the
    identifiers: a qualifier or a bracket is never an identifier, so the two
    tests behind [is_identifier] never change the answer; and no type
    parameter is an identifier.  On the empty string the function throws. *)
Theorem is_type_token_cases (t : string) :
  is_type_token t
  = (if is_type_parameter t then Some true else is_identifier t)
  /\ (is_type_parameter t = true -> is_identifier t = Some false)
  /\ (is_type_token t = None <-> t = "").
Proof.
  assert (Hid : is_identifier t = Some true ->
                is_qualifier t = false /\ is_bracket t = false).
  { unfold is_identifier.
    destruct t as [|c0 t']; [discriminate|]. intros [= H].
    apply andb_prop in H as [_ H].
    now apply identifier_characters_only. }
  assert (Htp : is_type_parameter t = true -> is_identifier t = Some false).
  { intros H. apply prefix_append in H as [rest ->]. reflexivity. }
  split; [|split; [exact Htp|]].
  - unfold is_type_token. destruct (is_type_parameter t); [reflexivity|].
    destruct (is_identifier t) as [[|]|] eqn:E; try reflexivity.
    destruct (Hid eq_refl) as [-> ->]. reflexivity.
  - unfold is_type_token. split.
    + destruct (is_type_parameter t) eqn:Etp; [discriminate|].
      destruct t; [reflexivity|]. simpl.
      destruct (isalpha _ && _); discriminate.
    + intros ->. reflexivity.
Qed.

(** The characters that the tokenizer turns into tokens of their own. *)
Definition is_separator (c : ascii) : bool :=
  Ascii.eqb c "(" || Ascii.eqb c ")" || Ascii.eqb c "[" || Ascii.eqb c "]"
  || Ascii.eqb c "," || Ascii.eqb c "*".

Definition no_separator (s : string) : bool :=
  string_forallb (fun c => negb (is_separator c)) s.

(** What the tokenizer keeps of every token: it is not empty, and a
    separator only occurs as a token of one character. *)
Definition token_ok (tok : string) : Prop :=
  tok <> ""
  /\ (no_separator tok = true
      \/ exists c, is_separator c = true /\ tok = String c "").

Lemma push_back_forallb (p : ascii -> bool) (s : string) (c : ascii) :
  string_forallb p (push_back s c) = string_forallb p s && p c.
Proof.
  unfold push_back. rewrite string_forallb_append. simpl.
  now rewrite andb_true_r.
Qed.

Lemma push_back_nonempty (s : string) (c : ascii) : push_back s c <> "".
Proof. destruct s; discriminate. Qed.

Lemma string_is_empty_false (s : string) :
  string_is_empty s = false <-> s <> "".
Proof. destruct s; simpl; split; intros; congruence. Qed.

Lemma push_nonempty_ok (result : list string) (tok : string) :
  Forall token_ok result -> no_separator tok = true ->
  Forall token_ok (push_nonempty result tok).
Proof.
  intros Hr Ht. unfold push_nonempty.
  destruct (string_is_empty tok) eqn:E; [exact Hr|].
  apply Forall_app. split; [exact Hr|].
  constructor; [|constructor].
  split; [now apply string_is_empty_false | now left].
Qed.

Lemma separator_token_ok (c : ascii) :
  is_separator c = true -> token_ok (String c "").
Proof. intros H. split; [discriminate|]. right. eauto. Qed.

(** One character keeps the tokens well formed and [tok] free of
    separators. *)
Lemma tokenize_char_ok (tok : string) (result : list string) (c : ascii) :
  no_separator tok = true -> Forall token_ok result ->
  no_separator (fst (tokenize_char (tok, result) c)) = true
  /\ Forall token_ok (snd (tokenize_char (tok, result) c)).
Proof.
  intros Ht Hr. unfold tokenize_char.
  assert (Hpush : forall sep,
             is_separator sep = true ->
             Forall token_ok (push_nonempty result tok ++ [String sep ""])).
  { intros sep Hsep. apply Forall_app. split;
      [now apply push_nonempty_ok|].
    constructor; [now apply separator_token_ok | constructor]. }
  assert (Hflush : tok <> "" -> Forall token_ok (result ++ [tok])).
  { intros Hne. apply Forall_app. split; [exact Hr|].
    constructor; [|constructor]. split; [exact Hne | now left]. }
  destruct (Ascii.eqb c "(" || Ascii.eqb c ")" || Ascii.eqb c "["
            || Ascii.eqb c "]") eqn:Eb.
  { split; [reflexivity|]. apply Hpush. unfold is_separator.
    now rewrite Eb. }
  destruct (Ascii.eqb_spec c ":") as [->|Hcolon].
  { destruct (string_is_empty tok) eqn:Ee; simpl.
    - split; [|exact Hr]. unfold no_separator in *.
      now rewrite push_back_forallb, Ht.
    - destruct (String.eqb tok ":"); simpl.
      + split; [|exact Hr]. unfold no_separator in *.
        now rewrite push_back_forallb, Ht.
      + split; [reflexivity|]. apply Hflush.
        now apply string_is_empty_false. }
  destruct (Ascii.eqb_spec c ",") as [->|Hcomma].
  { split; [reflexivity|]. now apply Hpush. }
  destruct (Ascii.eqb_spec c "*") as [->|Hstar].
  { split; [reflexivity|]. now apply Hpush. }
  destruct (Ascii.eqb_spec c ".") as [->|Hdot].
  { destruct (String.eqb tok ".."); simpl.
    - split; [reflexivity|]. apply Forall_app. split; [exact Hr|].
      constructor; [|constructor]. split; [discriminate | now left].
    - destruct (String.eqb tok "."); simpl; [now split|].
      destruct (string_is_empty tok) eqn:Ee; simpl; [now split|].
      split; [reflexivity|]. apply Hflush. now apply string_is_empty_false. }
  simpl. split; [|exact Hr].
  unfold no_separator in *. rewrite push_back_forallb, Ht. simpl.
  unfold is_separator.
  apply orb_false_elim in Eb as [Eb E4]. apply orb_false_elim in Eb as [Eb E3].
  apply orb_false_elim in Eb as [E1 E2]. rewrite E1, E2, E3, E4. simpl.
  destruct (Ascii.eqb_spec c ","); [contradiction|].
  destruct (Ascii.eqb_spec c "*"); [contradiction|]. reflexivity.
Qed.

Lemma tokenize_chars_ok (word : string) :
  forall tok result,
    no_separator tok = true -> Forall token_ok result ->
    no_separator (fst (string_fold_left tokenize_char word (tok, result)))
    = true
    /\ Forall token_ok
         (snd (string_fold_left tokenize_char word (tok, result))).
Proof.
  induction word as [|c word IH]; intros tok result Ht Hr;
    [now split|].
  change (string_fold_left tokenize_char (String c word) (tok, result))
    with (string_fold_left tokenize_char word (tokenize_char (tok, result) c)).
  destruct (tokenize_char_ok tok result c Ht Hr) as [Ht' Hr'].
  destruct (tokenize_char (tok, result) c) as [tok' result'].
  now apply IH.
Qed.

Lemma string_rev_onto_forallb (p : ascii -> bool) (s : string) :
  forall acc,
    string_forallb p (string_rev_onto s acc)
    = string_forallb p s && string_forallb p acc.
Proof.
  induction s as [|c s IH]; intros acc; simpl; [reflexivity|].
  rewrite IH. simpl. destruct (p c), (string_forallb p s); reflexivity.
Qed.

Lemma ltrim_forallb (p : ascii -> bool) (s : string) :
  string_forallb p s = true -> string_forallb p (ltrim s) = true.
Proof.
  induction s as [|c s IH]; simpl; [reflexivity|].
  intros H. destruct (isspace c); [|exact H].
  apply andb_prop in H as [_ H]. now apply IH.
Qed.

Lemma trim_forallb (p : ascii -> bool) (s : string) :
  string_forallb p s = true -> string_forallb p (trim s) = true.
Proof.
  intros H. unfold trim, string_rev.
  rewrite string_rev_onto_forallb, andb_true_r.
  apply ltrim_forallb.
  rewrite string_rev_onto_forallb, andb_true_r.
  now apply ltrim_forallb.
Qed.

Lemma qualified_no_separator (word : string) :
  string_forallb (fun c => is_identifier_character c || Ascii.eqb c ":") word
  = true ->
  no_separator word = true.
Proof.
  apply string_forallb_impl. intros c Hc.
  unfold is_separator, is_identifier_character, isalnum, isalpha in *.
  destruct c as [[] [] [] [] [] [] [] []]; try discriminate Hc; reflexivity.
Qed.

Lemma tokenize_word_ok (result : list string) (word : string)
    (result' : list string) :
  Forall token_ok result ->
  tokenize_word result word = Some result' ->
  Forall token_ok result'.
Proof.
  intros Hr. unfold tokenize_word, is_qualified_identifier.
  destruct word as [|c0 word']; [discriminate|].
  set (word := String c0 word').
  destruct (isalpha c0 && string_forallb _ word) eqn:Eq.
  - destruct (negb _ && negb _ && negb _); intros [= <-]; [|exact Hr].
    apply Forall_app. split; [exact Hr|].
    constructor; [|constructor]. split; [discriminate|]. left.
    apply andb_prop in Eq as [_ Eq]. now apply qualified_no_separator.
  - destruct (tokenize_chars_ok word "" result eq_refl Hr) as [Ht Hr'].
    destruct (string_fold_left tokenize_char word ("", result))
      as [tok result1]. simpl in Ht, Hr'.
    destruct (string_is_empty (trim tok)) eqn:Ee; simpl;
      [now intros [= <-]|].
    destruct (negb _ && negb _ && negb _); intros [= <-]; [|exact Hr'].
    apply Forall_app. split; [exact Hr'|].
    constructor; [|constructor].
    split; [now apply string_is_empty_false|]. left.
    now apply trim_forallb.
Qed.

Lemma tokenize_words_ok (spaced_out : list string) :
  forall result result',
    Forall token_ok result ->
    tokenize_words spaced_out result = Some result' ->
    Forall token_ok result'.
Proof.
  induction spaced_out as [|word words IH]; intros result result' Hr; simpl.
  - now intros [= <-].
  - destruct (tokenize_word result word) as [result1|] eqn:Ew;
      [|discriminate].
    apply IH. now apply (tokenize_word_ok result word).
Qed.

(** X9: when the tokenizer returns, no token is empty, and a bracket, a
    comma or a star only ever occurs as a token of one character: these
    separators are never a part of a longer token. *)
Theorem tokens_are_well_formed (t : string) (result : list string) :
  tokenize_unexposed_template_parameter t = Some result ->
  Forall token_ok result.
Proof.
  apply tokenize_words_ok. constructor.
Qed.

(** X10: the tokenizer throws exactly when one of the words is empty (the
    test for a qualified identifier reads the first character of the word
    without a check); otherwise it returns. *)
Theorem tokenize_words_throws (spaced_out : list string) :
  forall result,
    tokenize_words spaced_out result = None <-> In "" spaced_out.
Proof.
  induction spaced_out as [|word words IH]; intros result; simpl.
  - split; [discriminate | tauto].
  - destruct (tokenize_word result word) as [result1|] eqn:Ew.
    + rewrite IH. split; [now right|]. intros [->|H]; [|exact H].
      discriminate Ew.
    + split; [|reflexivity]. intros _. left.
      unfold tokenize_word in Ew. destruct word; [reflexivity|].
      simpl in Ew. destruct (isalpha _ && _).
      * destruct (negb _ && negb _ && negb _); discriminate.
      * destruct (string_fold_left _ _ _) as [tok r].
        destruct (negb _); [destruct (negb _ && negb _ && negb _)|];
          discriminate.
Qed.

(** ** Part VI. More of the parser of unexposed template parameters *)

(** The characters of [s] up to the last comma, cut at the commas, and the
    rest behind the last comma; [piece] is the text read so far. *)
Fixpoint comma_split (piece : string) (s : string) : list string * string :=
  match s with
  | EmptyString => ([], piece)
  | String c rest =>
      if Ascii.eqb c ","
      then (piece :: fst (comma_split "" rest), snd (comma_split "" rest))
      else comma_split (push_back piece c) rest
  end.

(** The arguments of a list without angle brackets: one for each comma, and
    one for the text behind the last comma unless it is empty. *)
Definition arguments_of (s : string) : list string :=
  push_nonempty (fst (comma_split "" s)) (snd (comma_split "" s)).

Definition no_angle (s : string) : bool :=
  string_forallb (fun c => negb (Ascii.eqb c "<") && negb (Ascii.eqb c ">")) s.

Definition plain (s : string) : bool :=
  string_forallb
    (fun c => negb (Ascii.eqb c "<") && negb (Ascii.eqb c ">")
              && negb (Ascii.eqb c ","))
    s.

Section Parser.

#[local] Set Default Proof Using "Type".

Variable ns_resolve : string -> string.
Variable trim_typename : string -> string.
Variable moved_from : template_parameter -> template_parameter.

Let parse := parse_unexposed_template_params ns_resolve trim_typename moved_from.
Let parse_fuel :=
  parse_unexposed_template_params_fuel ns_resolve trim_typename moved_from.
Let loop := parse_loop ns_resolve trim_typename moved_from.
Let arg (type : string) : template_parameter :=
  parsed ns_resolve trim_typename type [].

(** What the function does behind its loop. *)
Definition parse_end (st : option parser_state)
    : option (list template_parameter) :=
  match st with
  | None => None
  | Some st =>
      if string_is_empty (ps_type st) then Some (ps_res st)
      else Some (ps_res (complete_argument ns_resolve trim_typename
                           moved_from st))
  end.

Definition parse_start : parser_state :=
  {| ps_type := ""; ps_nested_params := []; ps_res := [] |}.

Lemma parse_loop_ext (nested nested' : string -> option (list template_parameter))
    (depth : Z) (it : string) :
  (forall s, (String.length s < String.length it)%nat ->
             nested s = nested' s) ->
  forall skip st, loop nested depth skip it st = loop nested' depth skip it st.
Proof.
  unfold loop.
  induction it as [|c rest IH]; intros Hext skip st; simpl; [reflexivity|].
  assert (Hrest : forall s, (String.length s < String.length rest)%nat ->
                            nested s = nested' s).
  { intros s Hs. apply Hext. simpl. lia. }
  destruct skip as [|k]; [|now apply IH].
  destruct (Ascii.eqb c "<").
  - rewrite <- (Hext (bracket_match rest O)).
    + destruct (nested _); [now apply IH | reflexivity].
    + pose proof (bracket_match_length rest O). simpl. lia.
  - destruct (Ascii.eqb c ">").
    + destruct (depth =? 0); [reflexivity | now apply IH].
    + destruct (Ascii.eqb c ","); now apply IH.
Qed.

Lemma parse_fuel_enough (n : nat) :
  forall params fuel depth,
    (String.length params < n)%nat -> (String.length params < fuel)%nat ->
    parse_fuel fuel params depth = parse params depth.
Proof.
  unfold parse, parse_unexposed_template_params, parse_fuel.
  induction n as [|n IH]; intros params fuel depth Hn Hfuel; [lia|].
  destruct fuel as [|fuel]; [lia|]. simpl.
  rewrite (parse_loop_ext _
             (fun s =>
                parse_unexposed_template_params_fuel ns_resolve trim_typename
                  moved_from (String.length params) s (depth + 1)));
    [reflexivity|].
  intros s Hs. pose proof (ltrim_length params).
  rewrite (IH s fuel) by lia. now rewrite (IH s (String.length params)) by lia.
Qed.

(** The equation of the recursion: the call on the text between the
    brackets is the function itself, one level deeper. *)
Lemma parse_unfold (params : string) (depth : Z) :
  parse params depth
  = parse_end
      (loop (fun s => parse s (depth + 1)) depth O (ltrim params) parse_start).
Proof.
  unfold parse at 1, parse_unexposed_template_params. simpl.
  rewrite (parse_loop_ext _ (fun s => parse s (depth + 1))); [reflexivity|].
  intros s Hs. pose proof (ltrim_length params).
  apply (parse_fuel_enough (S (String.length s))); lia.
Qed.

Lemma push_back_append (piece : string) (c : ascii) (s : string) :
  push_back piece c +:+ s = piece +:+ String c s.
Proof. unfold push_back. now rewrite append_assoc. Qed.

(** The loop on a text without angle brackets, with no nested parameters
    pending: it never calls itself and completes one argument at each
    comma. *)
Lemma loop_no_angle (nested : string -> option (list template_parameter))
    (depth : Z) (it : string) :
  no_angle it = true ->
  forall type res,
    loop nested depth O it
      {| ps_type := type; ps_nested_params := []; ps_res := res |}
    = Some {| ps_type := snd (comma_split type it);
              ps_nested_params := [];
              ps_res := res ++ map arg (fst (comma_split type it)) |}.
Proof.
  unfold loop, no_angle.
  induction it as [|c rest IH]; intros Hit type res; simpl.
  - now rewrite app_nil_r.
  - simpl in Hit. apply andb_prop in Hit as [Hc Hrest].
    apply andb_prop in Hc as [Hlt Hgt].
    apply negb_true_iff in Hlt, Hgt. rewrite Hlt, Hgt.
    destruct (Ascii.eqb c ","); simpl.
    + unfold complete_argument. simpl. rewrite (IH Hrest).
      now rewrite <- app_assoc.
    + now rewrite (IH Hrest).
Qed.

(** X11: a list of arguments without angle brackets is cut at its commas:
    the parser returns one parameter without children for each comma, named
    by the text in front of it (the empty text as well), and one for the
    text behind the last comma unless that text is empty.  White space in
    front of the list is skipped. *)
Theorem parse_flat_list (params : string) (depth : Z) :
  no_angle params = true ->
  parse params depth = Some (map arg (arguments_of (ltrim params))).
Proof.
  intros Hp. rewrite parse_unfold. unfold parse_start.
  rewrite loop_no_angle by (now apply ltrim_forallb).
  unfold parse_end, arguments_of, push_nonempty. simpl.
  destruct (string_is_empty _); [reflexivity|].
  unfold complete_argument. simpl. now rewrite map_app.
Qed.

Lemma ltrim_idempotent (s : string) : ltrim (ltrim s) = ltrim s.
Proof.
  induction s as [|c s IH]; simpl; [reflexivity|].
  destruct (isspace c) eqn:E; [exact IH|]. simpl. now rewrite E.
Qed.

Lemma ltrim_spaces (spaces s : string) :
  string_forallb isspace spaces = true ->
  ltrim (spaces +:+ s) = ltrim s.
Proof.
  induction spaces as [|c spaces IH]; simpl; [reflexivity|].
  intros H. apply andb_prop in H as [-> H]. now apply IH.
Qed.

(** X12: white space in front of the text does not change the result,
    whatever the text and the depth. *)
Theorem parse_skips_leading_spaces (spaces params : string) (depth : Z) :
  string_forallb isspace spaces = true ->
  parse (spaces +:+ params) depth = parse params depth.
Proof.
  intros H. rewrite !parse_unfold. now rewrite ltrim_spaces.
Qed.

Lemma loop_plain (nested : string -> option (list template_parameter))
    (depth : Z) (name rest : string) :
  plain name = true ->
  forall st,
    loop nested depth O (name +:+ rest) st
    = loop nested depth O rest
        {| ps_type := ps_type st +:+ name;
           ps_nested_params := ps_nested_params st;
           ps_res := ps_res st |}.
Proof.
  unfold loop, plain.
  induction name as [|c name IH]; intros Hname st; simpl.
  - destruct st as [type nested_params res]. cbn [ps_type ps_res
      ps_nested_params]. now rewrite append_nil_r.
  - simpl in Hname. apply andb_prop in Hname as [Hc Hname].
    apply andb_prop in Hc as [Hc Hcomma]. apply andb_prop in Hc as [Hlt Hgt].
    apply negb_true_iff in Hlt, Hgt, Hcomma. rewrite Hlt, Hgt, Hcomma.
    rewrite (IH Hname). simpl. now rewrite push_back_append.
Qed.

Lemma loop_skip (nested : string -> option (list template_parameter))
    (depth : Z) (skipped rest : string) :
  forall st,
    loop nested depth (String.length skipped) (skipped +:+ rest) st
    = loop nested depth O rest st.
Proof.
  unfold loop. induction skipped as [|c skipped IH]; intros st; simpl.
  - reflexivity.
  - apply IH.
Qed.

Lemma bracket_match_no_angle (args rest : string) :
  no_angle args = true ->
  bracket_match (args +:+ String ">" rest) O = args.
Proof.
  unfold no_angle. induction args as [|c args IH]; simpl; [reflexivity|].
  intros H. apply andb_prop in H as [Hc H]. apply andb_prop in Hc as [Hlt Hgt].
  apply negb_true_iff in Hlt, Hgt. rewrite Hlt, Hgt. now rewrite IH.
Qed.

Lemma ltrim_fixed_append (name rest : string) :
  name <> "" -> ltrim name = name -> ltrim (name +:+ rest) = name +:+ rest.
Proof.
  destruct name as [|c name]; [congruence|]. simpl. intros _.
  destruct (isspace c) eqn:E; [|reflexivity].
  intros H. exfalso. pose proof (ltrim_length name) as Hlen.
  rewrite H in Hlen. simpl in Hlen. lia.
Qed.

(** The children that the brackets of a template give: the arguments
    between them, or the text between them as one argument when the parser
    finds none in it. *)
Definition children_of (args : string) : list template_parameter :=
  match map arg (arguments_of (ltrim args)) with
  | [] => [make_unexposed_argument args]
  | children => children
  end.

(** X13: at depth 0, a template name followed by one level of brackets is
    one parameter whose children are the arguments between the brackets;
    empty brackets give one child with an empty name; whatever follows the
    closing bracket is ignored. *)
Theorem parse_one_level (name args rest : string) :
  name <> "" -> ltrim name = name -> plain name = true ->
  no_angle args = true ->
  parse (name +:+ String "<" (args +:+ String ">" rest)) 0
  = Some [parsed ns_resolve trim_typename name (children_of args)].
Proof.
  intros Hne Htrim Hname Hargs.
  rewrite parse_unfold, (ltrim_fixed_append name _ Hne Htrim).
  rewrite (loop_plain _ 0 name _ Hname). unfold parse_start. simpl.
  unfold loop. simpl.
  rewrite (bracket_match_no_angle args rest Hargs).
  fold parse. rewrite (parse_flat_list args (0 + 1) Hargs).
  fold loop. rewrite loop_skip. unfold loop. simpl.
  unfold parse_end. simpl.
  destruct name as [|c name']; [congruence|]. simpl.
  unfold complete_argument, children_of, parsed. simpl.
  now destruct (map arg (arguments_of (ltrim args))).
Qed.

(** X14: at depth 0 a closing bracket ends the parse: what follows it is
    never read, so a list without angle brackets parses the same with any
    text behind a closing bracket. *)
Theorem parse_stops_at_closing_bracket (params rest : string) :
  no_angle params = true ->
  parse (params +:+ String ">" rest) 0 = parse params 0.
Proof.
  intros Hp.
  assert (Hcut : forall it type res,
             no_angle it = true ->
             loop (fun s => parse s (0 + 1)) 0 O (it +:+ String ">" rest)
               {| ps_type := type; ps_nested_params := []; ps_res := res |}
             = loop (fun s => parse s (0 + 1)) 0 O it
                 {| ps_type := type; ps_nested_params := []; ps_res := res |}).
  { unfold loop, no_angle. induction it as [|c it IH]; intros type res Hit.
    - reflexivity.
    - simpl in Hit. apply andb_prop in Hit as [Hc Hit].
      apply andb_prop in Hc as [Hlt Hgt]. apply negb_true_iff in Hlt, Hgt.
      simpl. rewrite Hlt, Hgt.
      destruct (Ascii.eqb c ","); unfold complete_argument; simpl;
        now apply IH. }
  rewrite !parse_unfold.
  assert (Hl : exists spaces,
             string_forallb isspace spaces = true
             /\ params = spaces +:+ ltrim params).
  { clear. induction params as [|c s [spaces [Hs IH]]]; simpl.
    - exists "". now split.
    - destruct (isspace c) eqn:E.
      + exists (String c spaces). simpl. rewrite E, Hs. split; [reflexivity|].
        rewrite append_cons. f_equal. exact IH.
      + exists "". now split. }
  destruct Hl as (spaces & Hs & Hparams).
  destruct (ltrim params) as [|c0 p0] eqn:El.
  - (* only white space in front of the bracket *)
    rewrite Hparams. rewrite append_assoc, (ltrim_spaces _ _ Hs). simpl.
    reflexivity.
  - rewrite Hparams at 1. rewrite append_assoc, (ltrim_spaces _ _ Hs).
    assert (Hfix : ltrim (String c0 p0) = String c0 p0)
      by (rewrite <- El; apply ltrim_idempotent).
    rewrite (ltrim_fixed_append (String c0 p0) _ ltac:(discriminate) Hfix).
    unfold parse_start. rewrite Hcut; [reflexivity|].
    rewrite <- El. now apply ltrim_forallb.
Qed.

End Parser.

(** ** Part VII. More of the sequence generator *)

Section Sequences.

#[local] Set Default Proof Using "Type".

Variable ns_relative : list string -> string -> string.
Variable m_config : sequence_diagram.

Let call := generate_call ns_relative m_config.
Let ret := generate_return ns_relative m_config.
Let act := generate_activity ns_relative m_config.
Let mark := fun keyword => activation ns_relative keyword m_config.

(** A function of the stream that only writes behind what is there. *)
Definition writes (f : string -> option string) : Prop :=
  forall ostr, f ostr = option_map (fun out => ostr +:+ out) (f "").

Lemma call_writes (m : message) (ostr : string) :
  call m ostr = ostr +:+ call m "".
Proof. reflexivity. Qed.

Lemma ret_writes (m : message) (ostr : string) :
  ret m ostr = ostr +:+ ret m "".
Proof.
  unfold ret, generate_return.
  destruct (negb _ && negb _); [reflexivity|].
  now rewrite append_nil_r.
Qed.

Lemma generate_messages_writes (step : message -> string -> option string)
    (ms : list message) :
  (forall m, In m ms -> writes (step m)) ->
  writes (generate_messages step ms).
Proof.
  induction ms as [|m ms IH]; intros Hstep ostr; simpl.
  - now rewrite append_nil_r.
  - rewrite (Hstep m (or_introl eq_refl) ostr).
    destruct (step m "") as [out|]; simpl; [|reflexivity].
    assert (Hms : writes (generate_messages step ms)).
    { apply IH. intros m' Hm'. apply Hstep. now right. }
    rewrite (Hms (ostr +:+ out)), (Hms out).
    destruct (generate_messages step ms ""); simpl; [|reflexivity].
    now rewrite append_assoc.
Qed.

Lemma generate_message_writes (sequences : gmap string activity)
    (nested : activity -> string -> option string) (m : message) :
  (forall a, writes (nested a)) ->
  writes (generate_message ns_relative m_config sequences nested m).
Proof.
  intros Hnested ostr. unfold generate_message.
  fold call. fold ret. fold (mark "activate " m). fold (mark "deactivate " m).
  rewrite (call_writes m ostr).
  destruct (sequences !! to_usr m) as [a|].
  - rewrite (Hnested a ((ostr +:+ call m "") +:+ mark "activate " m)).
    rewrite (Hnested a (call m "" +:+ mark "activate " m)).
    destruct (nested a "") as [out|]; simpl; [|reflexivity].
    rewrite (ret_writes m (((ostr +:+ _) +:+ _) +:+ out)).
    rewrite (ret_writes m ((call m "" +:+ _) +:+ out)).
    now rewrite !append_assoc.
  - simpl.
    rewrite (ret_writes m ((ostr +:+ _) +:+ _)).
    rewrite (ret_writes m (call m "" +:+ _)).
    now rewrite !append_assoc.
Qed.

Lemma generate_activity_writes (fuel : nat) (sequences : gmap string activity) :
  forall a,
    writes (generate_activity ns_relative m_config fuel sequences a).
Proof.
  induction fuel as [|fuel IH]; intros a ostr; [reflexivity|].
  simpl. apply generate_messages_writes.
  intros m _. now apply generate_message_writes.
Qed.

(** What the loop of [generate_activity] writes for one message: the call,
    the activation, the activity of the callee when the model holds one,
    what [generate_return] writes, and the deactivation.  There is no block
    when the activity of the callee does not return. *)
Definition message_block (fuel : nat) (sequences : gmap string activity)
    (m : message) : option string :=
  match
    match sequences !! to_usr m with
    | Some a => generate_activity ns_relative m_config fuel sequences a ""
    | None => Some ""
    end
  with
  | Some nested =>
      Some (call m "" +:+ mark "activate " m +:+ nested +:+ ret m ""
            +:+ mark "deactivate " m)
  | None => None
  end.

Fixpoint message_blocks (fuel : nat) (sequences : gmap string activity)
    (ms : list message) : option string :=
  match ms with
  | [] => Some ""
  | m :: ms' =>
      match message_block fuel sequences m with
      | Some block =>
          option_map (fun blocks => block +:+ blocks)
            (message_blocks fuel sequences ms')
      | None => None
      end
  end.

Lemma generate_messages_blocks (fuel : nat)
    (sequences : gmap string activity) (ms : list message) :
  forall ostr,
    generate_messages
      (generate_message ns_relative m_config sequences
         (generate_activity ns_relative m_config fuel sequences))
      ms ostr
    = option_map (fun out => ostr +:+ out) (message_blocks fuel sequences ms).
Proof.
  induction ms as [|m ms IH]; intros ostr; simpl.
  - now rewrite append_nil_r.
  - unfold generate_message at 1. unfold message_block.
    fold call. fold ret. fold (mark "activate " m).
    fold (mark "deactivate " m).
    rewrite (call_writes m ostr).
    destruct (sequences !! to_usr m) as [a|].
    + rewrite (generate_activity_writes fuel sequences a
                 ((ostr +:+ call m "") +:+ mark "activate " m)).
      destruct (generate_activity ns_relative m_config fuel sequences a "")
        as [nested|]; simpl; [|reflexivity].
      rewrite IH.
      destruct (message_blocks fuel sequences ms) as [blocks|]; simpl;
        [|reflexivity].
      f_equal.
      rewrite (ret_writes m (((ostr +:+ _) +:+ _) +:+ nested)).
      now rewrite !append_assoc.
    + simpl. rewrite IH.
      destruct (message_blocks fuel sequences ms) as [blocks|]; simpl;
        [|reflexivity].
      f_equal.
      rewrite (ret_writes m ((ostr +:+ _) +:+ _)).
      now rewrite !append_assoc.
Qed.

(** C4 (amended): [generate_return] writes a return arrow exactly when the
    return type is not [void] and the message does not go from a participant
    to itself, and then it writes the arrow from [to] back to [from]; and
    [generate_activity] writes, for each message of any activity in turn,
    the call, the activation, the activity of the callee if the model holds
    one, what [generate_return] writes for this message, and the
    deactivation: it returns exactly when the activities of all callees
    return. *)
Theorem generate_return_pairs_call (m : message) (ostr : string) :
  (generate_return ns_relative m_config m ostr <> ostr
   <-> (from m <> to m /\ return_type m <> "void"))
  /\ (generate_return ns_relative m_config m ostr
      = ostr +:+ return_arrow ns_relative m_config m
      <-> (from m <> to m /\ return_type m <> "void"))
  /\ (forall fuel sequences a,
        generate_activity ns_relative m_config (S fuel) sequences a ostr
        = option_map (fun out => ostr +:+ out)
            (message_blocks fuel sequences (messages a)))
  /\ (forall fuel sequences,
        message_block fuel sequences m
        = option_map
            (fun nested =>
               generate_call ns_relative m_config m ""
               +:+ activation ns_relative "activate " m_config m
               +:+ nested
               +:+ generate_return ns_relative m_config m ""
               +:+ activation ns_relative "deactivate " m_config m)
            match sequences !! to_usr m with
            | Some a =>
                generate_activity ns_relative m_config fuel sequences a ""
            | None => Some ""
            end).
Proof.
  split; [apply generate_return_emits|].
  split; [apply generate_return_arrow|].
  split.
  - intros fuel sequences a. simpl. apply generate_messages_blocks.
  - intros fuel sequences. unfold message_block.
    now destruct (match sequences !! to_usr m with
                  | Some a => _
                  | None => _
                  end).
Qed.

(** X15: [generate_activity] only writes behind what the stream holds:
    what it writes does not depend on the stream, and it returns on a
    stream exactly when it returns on the empty one. *)
Theorem generate_activity_appends (fuel : nat)
    (sequences : gmap string activity) (a : activity) (ostr : string) :
  generate_activity ns_relative m_config fuel sequences a ostr
  = option_map (fun out => ostr +:+ out)
      (generate_activity ns_relative m_config fuel sequences a "").
Proof. apply generate_activity_writes. Qed.

Lemma generate_messages_fails (step : message -> string -> option string)
    (ms : list message) (m : message) :
  In m ms -> (forall ostr, step m ostr = None) ->
  forall ostr, generate_messages step ms ostr = None.
Proof.
  induction ms as [|m' ms IH]; intros Hin Hm ostr; simpl; [destruct Hin|].
  destruct Hin as [->|Hin]; [now rewrite Hm|].
  destruct (step m' ostr); [now apply IH|reflexivity].
Qed.

(** X16: the recursion has no guard: for an activity that holds a message
    to itself (a function that calls itself), [generate_activity] does not
    return, however deep the recursion may go. *)
Theorem generate_activity_recursive_call (sequences : gmap string activity)
    (key : string) (a : activity) (m : message) :
  sequences !! key = Some a -> In m (messages a) -> to_usr m = key ->
  forall fuel ostr,
    generate_activity ns_relative m_config fuel sequences a ostr = None.
Proof.
  intros Hkey Hin Hto fuel.
  induction fuel as [|fuel IH]; intros ostr; [reflexivity|]. simpl.
  apply (generate_messages_fails _ _ m Hin).
  intros ostr'. unfold generate_message. rewrite Hto, Hkey.
  now rewrite IH.
Qed.

(** The lines of one message whose callee has no activity of its own. *)
Definition leaf_block (m : message) : string :=
  call m "" +:+ mark "activate " m +:+ ret m "" +:+ mark "deactivate " m.

Fixpoint concat_strings (l : list string) : string :=
  match l with
  | [] => ""
  | s :: l' => s +:+ concat_strings l'
  end.

(** X17: an activity none of whose callees has an activity of its own is
    written message by message, in order: the call, the activation, the
    return arrow if there is one, and the deactivation; one level of
    recursion is enough. *)
Theorem generate_activity_leaf (sequences : gmap string activity)
    (a : activity) (fuel : nat) (ostr : string) :
  (forall m, In m (messages a) -> sequences !! to_usr m = None) ->
  generate_activity ns_relative m_config (S fuel) sequences a ostr
  = Some (ostr +:+ concat_strings (map leaf_block (messages a))).
Proof.
  simpl. generalize (messages a) as ms. intros ms. revert ostr.
  induction ms as [|m ms IH]; intros ostr Hleaf; simpl.
  - now rewrite append_nil_r.
  - unfold generate_message at 1. rewrite (Hleaf m (or_introl eq_refl)).
    rewrite IH by (intros m' Hm'; apply Hleaf; now right).
    f_equal. fold call. fold ret. fold (mark "activate " m).
    fold (mark "deactivate " m). unfold leaf_block.
    rewrite (ret_writes m (_ +:+ _)), (call_writes m ostr).
    now rewrite !append_assoc.
Qed.

Lemma write_lines_writes (lines : list string) (ostr : string) :
  write_lines lines ostr = ostr +:+ write_lines lines "".
Proof.
  unfold write_lines. revert ostr.
  induction lines as [|line lines IH]; intros ostr; simpl.
  - now rewrite append_nil_r.
  - rewrite (IH (ostr +:+ line +:+ endl)), (IH ("" +:+ line +:+ endl)).
    now rewrite !append_assoc.
Qed.

Lemma generate_start_from_writes (fuel : nat)
    (entries : list source_location) :
  forall sequences ostr,
    generate_start_from ns_relative m_config fuel entries sequences ostr
    = match
        generate_start_from ns_relative m_config fuel entries sequences ""
      with
      | Some (out, sequences') => Some (ostr +:+ out, sequences')
      | None => None
      end.
Proof.
  induction entries as [|sf entries IH]; intros sequences ostr; simpl.
  - now rewrite append_nil_r.
  - destruct sf as [u|name|file line]; try apply IH.
    destruct (sequences_at sequences u) as [a sequences1].
    rewrite (generate_activity_writes fuel sequences1 a ostr).
    destruct (generate_activity _ _ fuel sequences1 a "") as [out|]; simpl;
      [|reflexivity].
    rewrite (IH sequences1 (ostr +:+ out)), (IH sequences1 out).
    destruct (generate_start_from _ _ _ entries sequences1 "")
      as [[out' sequences2]|]; [|reflexivity].
    now rewrite append_assoc.
Qed.

(** X18: when [generate] returns, what it has written is [@startuml], the
    lines of [puml.before], the activities of the entry points, the lines
    of [puml.after] and [@enduml], each line closed by a line end, behind
    what the stream held. *)
Theorem generate_document (fuel : nat) (sequences : gmap string activity)
    (ostr : string) :
  generate ns_relative m_config fuel sequences ostr
  = match
      generate_start_from ns_relative m_config fuel (start_from m_config)
        sequences ""
    with
    | Some (activities, sequences') =>
        Some (ostr +:+ "@startuml" +:+ endl
              +:+ write_lines (puml_before m_config) ""
              +:+ activities
              +:+ write_lines (puml_after m_config) ""
              +:+ "@enduml" +:+ endl,
              sequences')
    | None => None
    end.
Proof.
  unfold generate. rewrite generate_start_from_writes.
  destruct (generate_start_from _ _ _ _ sequences "")
    as [[activities sequences']|]; [|reflexivity].
  f_equal. f_equal.
  rewrite (write_lines_writes (puml_after m_config) _).
  rewrite (write_lines_writes (puml_before m_config) _).
  now rewrite !append_assoc.
Qed.

(** What [generate] leaves in the model under a key: the activity that was
    there, or an empty one under a missing key that is an entry point. *)
Definition model_after (entries : list source_location)
    (sequences : gmap string activity) (key : string) : option activity :=
  match sequences !! key with
  | Some a => Some a
  | None =>
      if existsb
           (fun sf =>
              match sf with usr u => String.eqb u key | _ => false end)
           entries
      then Some {| messages := [] |}
      else None
  end.

Lemma sequences_at_lookup (sequences : gmap string activity) (u key : string) :
  snd (sequences_at sequences u) !! key
  = match sequences !! key with
    | Some a => Some a
    | None => if String.eqb u key then Some {| messages := [] |} else None
    end.
Proof.
  unfold sequences_at. destruct (sequences !! u) as [a|] eqn:Hu; simpl.
  - destruct (sequences !! key) eqn:Hk; [reflexivity|].
    destruct (String.eqb_spec u key) as [->|]; [congruence|reflexivity].
  - destruct (String.eqb_spec u key) as [->|Hne].
    + now rewrite lookup_insert_eq, Hu.
    + rewrite lookup_insert_ne by exact Hne.
      now destruct (sequences !! key).
Qed.

Lemma generate_start_from_model (fuel : nat) (entries : list source_location) :
  forall sequences ostr out sequences',
    generate_start_from ns_relative m_config fuel entries sequences ostr
    = Some (out, sequences') ->
    forall key, sequences' !! key = model_after entries sequences key.
Proof.
  induction entries as [|sf entries IH];
    intros sequences ostr out sequences'; simpl.
  - intros [= _ <-] key. unfold model_after. simpl.
    now destruct (sequences !! key).
  - destruct sf as [u|name|file line];
      try (intros H key; rewrite (IH _ _ _ _ H key); reflexivity).
    pose proof (sequences_at_lookup sequences u) as Hat.
    destruct (sequences_at sequences u) as [a sequences1]. simpl in Hat.
    destruct (generate_activity _ _ _ _ _ _) as [ostr1|]; [|discriminate].
    intros H key. rewrite (IH _ _ _ _ H key). unfold model_after.
    rewrite Hat. simpl.
    destruct (sequences !! key); [reflexivity|].
    now destruct (String.eqb u key).
Qed.

(** X19: [generate] never changes or removes an activity of the model; the
    only thing it adds is an empty activity under each USR of [start_from]
    that the model does not hold (the lookup of an entry point inserts
    it). *)
Theorem generate_keeps_the_model (fuel : nat)
    (sequences sequences' : gmap string activity) (ostr out : string) :
  generate ns_relative m_config fuel sequences ostr = Some (out, sequences') ->
  forall key,
    sequences' !! key = model_after (start_from m_config) sequences key.
Proof.
  unfold generate.
  destruct (generate_start_from _ _ _ _ _ _) as [[out1 sequences1]|] eqn:H;
    [|discriminate].
  intros [= _ <-]. now apply (generate_start_from_model _ _ _ _ _ _ H).
Qed.

End Sequences.

(** ** Part VIII. More of the command line handler (cli_handler.cc) *)

Lemma add_custom_user_data_app (l1 l2 : list (string * string)) :
  forall config_user_data,
    add_custom_user_data (l1 ++ l2) config_user_data
    = match add_custom_user_data l1 config_user_data with
      | Returned kContinue config_user_data' =>
          add_custom_user_data l2 config_user_data'
      | other => other
      end.
Proof.
  induction l1 as [|[key_path value] l1 IH]; intros config_user_data; simpl.
  - reflexivity.
  - destruct (set_path _ _ config_user_data); try reflexivity.
    apply IH.
Qed.

Lemma add_custom_user_data_flow (l : list (string * string)) :
  forall config_user_data flow config_user_data',
    add_custom_user_data l config_user_data
    = Returned flow config_user_data' ->
    flow = kContinue \/ flow = kError.
Proof.
  induction l as [|[key_path value] l IH]; intros c flow c'; simpl.
  - intros [= <- _]. now left.
  - destruct (set_path _ _ c); try (intros [= <- _]; now right);
      try discriminate.
    apply IH.
Qed.

(** X20: the entries of [--user-data] are applied in order, and the first
    one that fails ends the function: the entries behind it are never
    applied, and the entries in front of it stay applied.  The function
    never asks to exit. *)
Theorem add_custom_user_data_in_order (l1 l2 : list (string * string))
    (config_user_data : json) :
  (forall c,
     add_custom_user_data l1 config_user_data = Returned kContinue c ->
     add_custom_user_data (l1 ++ l2) config_user_data
     = add_custom_user_data l2 c)
  /\ (forall c,
        add_custom_user_data l1 config_user_data = Returned kError c ->
        add_custom_user_data (l1 ++ l2) config_user_data = Returned kError c)
  /\ (forall c,
        add_custom_user_data l1 config_user_data = Thrown c ->
        add_custom_user_data (l1 ++ l2) config_user_data = Thrown c)
  /\ (forall c, add_custom_user_data l1 config_user_data <> Returned kExit c).
Proof.
  repeat split; intros c H.
  - now rewrite add_custom_user_data_app, H.
  - now rewrite add_custom_user_data_app, H.
  - now rewrite add_custom_user_data_app, H.
  - destruct (add_custom_user_data_flow _ _ _ _ H); discriminate.
Qed.

(** X21: after the function has returned [kContinue], the value of the last
    entry is a string at the leaf that its key path designates: a lookup
    along the same keys finds it. *)
Theorem user_data_is_found (entries : list (string * string))
    (key_path value : string) (config_user_data config_user_data' : json) :
  add_custom_user_data (entries ++ [(key_path, value)]) config_user_data
  = Returned kContinue config_user_data' ->
  get_path (split key_path ".") config_user_data' = Some (Jstring value).
Proof.
  rewrite add_custom_user_data_app.
  destruct (add_custom_user_data entries config_user_data)
    as [[| |] c|c]; try discriminate.
  simpl.
  destruct (set_path _ _ c) as [c'| |] eqn:Hset; try discriminate.
  intros [= <-]. now apply (set_path_assigns _ _ c).
Qed.

Lemma add_custom_user_data_failure (entries : list (string * string)) :
  forall config_user_data config_user_data',
    add_custom_user_data entries config_user_data
    = Returned kError config_user_data'
    \/ add_custom_user_data entries config_user_data = Thrown config_user_data' ->
    exists applied failing ignored,
      entries = applied ++ failing :: ignored
      /\ add_custom_user_data applied config_user_data
         = Returned kContinue config_user_data'
      /\ add_custom_user_data [failing] config_user_data'
         = add_custom_user_data entries config_user_data.
Proof.
  induction entries as [|[key_path value] entries IH]; intros c c'.
  - intros [H|H]; discriminate.
  - change (add_custom_user_data ((key_path, value) :: entries) c)
      with (match set_path (split key_path ".") (Jstring value) c with
            | Assigned c1 => add_custom_user_data entries c1
            | NotAnObject c1 => Returned kError c1
            | TypeError c1 => Thrown c1
            end).
    destruct (set_path _ _ c) as [c1|c1|c1] eqn:Hset.
    + intros H.
      destruct (IH c1 c' H) as (applied & failing & ignored & -> & Ha & Hf).
      exists ((key_path, value) :: applied), failing, ignored.
      split; [reflexivity|]. split; [|exact Hf].
      simpl. now rewrite Hset.
    + intros [[= <-]|H]; [|discriminate].
      assert (Hc : c1 = c).
      { eapply set_path_failure_unchanged. left. exact Hset. }
      subst c1.
      exists [], (key_path, value), entries. split; [reflexivity|].
      split; [reflexivity|]. simpl. now rewrite Hset.
    + intros [H|[= <-]]; [discriminate|].
      assert (Hc : c1 = c).
      { eapply set_path_failure_unchanged. right. exact Hset. }
      subst c1.
      exists [], (key_path, value), entries. split; [reflexivity|].
      split; [reflexivity|]. simpl. now rewrite Hset.
Qed.

(** X22: a failing entry changes nothing: when the function returns
    [kError], or throws, the entries split into those applied, the failing
    one and those ignored; the user data are exactly as the applied entries
    have left them, and the failing entry, run alone on these user data,
    fails in the same way and hands them back as they are: no key of the
    failing path has been created on the way. *)
Theorem failing_entry_changes_nothing (entries : list (string * string))
    (config_user_data config_user_data' : json) :
  add_custom_user_data entries config_user_data
  = Returned kError config_user_data'
  \/ add_custom_user_data entries config_user_data = Thrown config_user_data' ->
  exists applied failing ignored,
    entries = applied ++ failing :: ignored
    /\ add_custom_user_data applied config_user_data
       = Returned kContinue config_user_data'
    /\ add_custom_user_data [failing] config_user_data'
       = add_custom_user_data entries config_user_data.
Proof. apply add_custom_user_data_failure. Qed.

(** Two key paths that part at some key, before either of them ends. *)
Fixpoint diverges (p q : list string) : bool :=
  match p, q with
  | a :: p', b :: q' => if String.eqb a b then diverges p' q' else true
  | _, _ => false
  end.

Lemma members_lookup_set_ne (key other : string) (value : json)
    (members : list (string * json)) :
  key <> other ->
  members_lookup other (members_set key value members)
  = members_lookup other members.
Proof.
  intros Hne. induction members as [|[k v] members IH]; simpl.
  - destruct (String.eqb_spec key other); [contradiction|reflexivity].
  - destruct (String.eqb_spec k key) as [->|Hk]; simpl.
    + destruct (String.eqb_spec key other); [contradiction|reflexivity].
    + now rewrite IH.
Qed.

Lemma set_path_frame (p : list string) (value : json) :
  forall q node node',
    set_path p value node = Assigned node' ->
    diverges p q = true ->
    get_path q node' = get_path q node.
Proof.
  induction p as [|a p IH]; intros q node node'; simpl; [discriminate|].
  destruct q as [|b q]; [discriminate|].
  destruct (negb (is_object node) && negb (empty node)); [discriminate|].
  destruct node as [| | | | |members]; try discriminate.
  - destruct (set_path p value Jnull) as [child| |] eqn:E; simpl;
      try discriminate.
    intros [= <-]. simpl.
    destruct (String.eqb_spec a b) as [->|Hne]; [|reflexivity].
    intros Hd. rewrite (IH q Jnull child E Hd).
    destruct q; [|reflexivity]. destruct p; discriminate Hd.
  - destruct (set_path p value _) as [child| |] eqn:E; simpl;
      try discriminate.
    intros [= <-]. simpl.
    destruct (String.eqb_spec a b) as [->|Hne].
    + intros Hd. rewrite members_lookup_set, (IH q _ child E Hd).
      destruct (members_lookup b members); [reflexivity|].
      destruct q; [|reflexivity]. destruct p; discriminate Hd.
    + intros _. now rewrite members_lookup_set_ne.
Qed.

(** X23: an entry only changes what lies under its own key path: what a
    key path that parts from it designates is the same before and after,
    present or not. *)
Theorem user_data_elsewhere_untouched (key_path value : string)
    (q : list string) (config_user_data config_user_data' : json) :
  add_custom_user_data [(key_path, value)] config_user_data
  = Returned kContinue config_user_data' ->
  diverges (split key_path ".") q = true ->
  get_path q config_user_data' = get_path q config_user_data.
Proof.
  simpl. destruct (set_path _ _ config_user_data) as [c| |] eqn:E;
    try discriminate.
  intros [= <-]. now apply (set_path_frame _ _ q _ _ E).
Qed.

(** The options that [handle_pre_config_options] reads. *)
Record pre_config_options : Type := {
  show_version : bool;
  config_path : string;
  initialize : bool;
  add_diagram_from_template : option string;
  add_class_diagram : option string;
  add_sequence_diagram : option string;
  add_package_diagram : option string;
  add_include_diagram : option string;
  print_from : bool;
  print_to : bool;
  diagram_names : list string
}.

Inductive diagram_t : Type := kClass | kSequence | kPackage | kInclude.

(** What [handle_pre_config_options] returns: a flow of its own, or what
    the method it ends in returns. *)
Inductive pre_config_step : Type :=
  | print_version
  | create_config_file
  | add_config_diagram (type : diagram_t) (config_file_path name : string)
  | flow (f : cli_flow_t).

Definition handle_pre_config_options (o : pre_config_options)
    : pre_config_step :=
  if show_version o then print_version
  else if String.eqb (config_path o) "-"
          && (initialize o
              || is_Some_bool (add_diagram_from_template o)
              || is_Some_bool (add_class_diagram o)
              || is_Some_bool (add_sequence_diagram o)
              || is_Some_bool (add_package_diagram o)
              || is_Some_bool (add_include_diagram o))
  then flow kError
  else if (print_from o || print_to o)
          && negb (Nat.eqb (length (diagram_names o)) 1)
  then flow kError
  else if initialize o then create_config_file
  else if negb (String.eqb (config_path o) "-") then
    match add_class_diagram o, add_sequence_diagram o,
          add_package_diagram o, add_include_diagram o with
    | Some name, _, _, _ => add_config_diagram kClass (config_path o) name
    | None, Some name, _, _ =>
        add_config_diagram kSequence (config_path o) name
    | None, None, Some name, _ =>
        add_config_diagram kPackage (config_path o) name
    | None, None, None, Some name =>
        add_config_diagram kInclude (config_path o) name
    | None, None, None, None => flow kContinue
    end
  else flow kContinue.

(** The steps that write the configuration file. *)
Definition writes_config_file (s : pre_config_step) : bool :=
  match s with
  | create_config_file | add_config_diagram _ _ _ => true
  | _ => false
  end.

(** X24: with the configuration read from standard input (path [-]), the
    options handled before the configuration is loaded never end in a step
    that writes a configuration file.  The flow continues to the loading of
    the configuration exactly when no version and no initialisation is asked
    for, no class, sequence, package or include diagram is to be added, a
    diagram from a template is not asked for together with standard input,
    and [--print-from] or [--print-to] come with exactly one diagram name.
    With a configuration file, a diagram from a template does not end the
    flow here: it is handled after the configuration is loaded. *)
Theorem pre_config_options_stdin (o : pre_config_options) :
  (config_path o = "-" ->
   writes_config_file (handle_pre_config_options o) = false)
  /\ (handle_pre_config_options o = flow kContinue
      <-> show_version o = false /\ initialize o = false
          /\ add_class_diagram o = None /\ add_sequence_diagram o = None
          /\ add_package_diagram o = None /\ add_include_diagram o = None
          /\ (config_path o = "-" -> add_diagram_from_template o = None)
          /\ (print_from o || print_to o = true ->
              length (diagram_names o) = 1%nat)).
Proof.
  unfold handle_pre_config_options.
  destruct (show_version o);
    [split; [reflexivity | split; [discriminate | intros (H & _); discriminate]]|].
  destruct (initialize o).
  { split.
    - intros Hp.
      destruct (String.eqb_spec (config_path o) "-"); [reflexivity|].
      contradiction.
    - split; [|intros (_ & H & _); discriminate].
      destruct (String.eqb _ _); simpl; [discriminate|].
      destruct (_ && _); discriminate. }
  destruct (Nat.eqb_spec (length (diagram_names o)) 1) as [Hn|Hn];
    destruct (print_from o || print_to o) eqn:Hprint; simpl;
    destruct (String.eqb_spec (config_path o) "-") as [Hp|Hp]; simpl;
    destruct (add_diagram_from_template o), (add_class_diagram o),
      (add_sequence_diagram o), (add_package_diagram o),
      (add_include_diagram o); simpl;
    (split; [try reflexivity; try (intros Hp'; contradiction)|]);
    (split;
     [ try discriminate; intros _; repeat split; try discriminate;
       try (intros Hp'; contradiction); try (intros _; assumption)
     | intros (_ & _ & Hc & Hs & Hk & Hi & Ht & Hd);
       try discriminate; try reflexivity;
       try (specialize (Ht Hp); discriminate);
       try (specialize (Hd eq_refl); contradiction) ]).
Qed.

(** [config::diagram_template]: the field that [print_diagram_template]
    writes. *)
Record diagram_template : Type := {
  description : string;
  jinja_template : string
}.

(** The loop over the templates, in the order the map gives them: the first
    entry with the name asked for. *)
Fixpoint find_template (entries : list (string * diagram_template))
    (template_name : string) : option diagram_template :=
  match entries with
  | [] => None
  | (name, t) :: entries' =>
      if String.eqb template_name name then Some t
      else find_template entries' template_name
  end.

(** [config.diagram_templates] is an optional map; the function returns the
    stream and the flow. *)
Definition print_diagram_template
    (diagram_templates : option (gmap string diagram_template))
    (template_name : string) (ostr : string) : string * cli_flow_t :=
  match diagram_templates with
  | None =>
      (ostr +:+ "No such diagram template: " +:+ template_name +:+ endl, kError)
  | Some templates =>
      match templates !! template_name with
      | None =>
          (ostr +:+ "No such diagram template: " +:+ template_name +:+ endl,
           kError)
      | Some _ =>
          match find_template (map_to_list templates) template_name with
          | Some t => (ostr +:+ jinja_template t +:+ endl, kExit)
          | None => (ostr, kError)
          end
      end
  end.

Lemma find_template_unique (entries : list (string * diagram_template))
    (name : string) (t : diagram_template) :
  base.NoDup (entries.*1) -> (name, t) ∈ entries ->
  find_template entries name = Some t.
Proof.
  induction entries as [|[n t'] entries IH]; simpl; intros Hnd Hin.
  - now apply elem_of_nil in Hin.
  - apply NoDup_cons in Hnd as [Hn Hnd].
    apply elem_of_cons in Hin as [[= <- <-]|Hin].
    + now rewrite String.eqb_refl.
    + destruct (String.eqb_spec name n) as [->|Hne]; [|now apply IH].
      exfalso. apply Hn. apply list_elem_of_fmap. now exists (n, t).
Qed.

(** X25: [print_diagram_template] writes the template and asks to exit
    exactly when the configuration defines a template of that name;
    otherwise (no templates at all, or none of that name) it writes that
    there is no such template and returns an error.  The error behind its
    loop is never reached. *)
Theorem print_diagram_template_found
    (diagram_templates : option (gmap string diagram_template))
    (template_name : string) (ostr : string) :
  print_diagram_template diagram_templates template_name ostr
  = match diagram_templates ≫= (fun templates => templates !! template_name)
    with
    | Some t => (ostr +:+ jinja_template t +:+ endl, kExit)
    | None =>
        (ostr +:+ "No such diagram template: " +:+ template_name +:+ endl,
         kError)
    end.
Proof.
  unfold print_diagram_template.
  destruct diagram_templates as [templates|]; simpl; [|reflexivity].
  destruct (templates !! template_name) as [t|] eqn:Hl; [|reflexivity].
  rewrite (find_template_unique _ template_name t); [reflexivity| |].
  - apply NoDup_fst_map_to_list.
  - now apply elem_of_map_to_list.
Qed.

(** ** Part IX. Names of tag declarations (clang_utils.cc) *)

(** A declaration context on the chain of [getParent()]: a record, a
    namespace, or anything else (the translation unit, a function, ...). *)
Inductive parent_context : Type :=
  | ParentRecord (name : string)
  | ParentNamespace (name : string) (is_inline is_anonymous : bool)
  | ParentOther.

(** A tag declaration: its name, its id, and the chain of its parents from
    the nearest one outwards (a null pointer ends the chain). *)
Record TagDecl : Type := {
  getNameAsString : string;
  getID : Z;
  parents_ : list parent_context
}.

Definition isRecord (c : parent_context) : bool :=
  match c with ParentRecord _ => true | _ => false end.

Definition isNamespaceContext (c : parent_context) : bool :=
  match c with ParentNamespace _ _ _ => true | _ => false end.

(** The first loop of [get_tag_namespace]: up to the nearest namespace. *)
Fixpoint nearest_namespace (parent : list parent_context)
    : list parent_context :=
  match parent with
  | [] => []
  | c :: parent' =>
      if negb (isNamespaceContext c) then nearest_namespace parent' else parent
  end.

(** The second loop: the names of the namespaces are pushed to the front
    of the deque while the parent is a namespace. *)
Fixpoint namespace_tokens (parent : list parent_context)
    (tokens : list string) : list string :=
  match parent with
  | ParentNamespace name is_inline is_anonymous :: parent' =>
      namespace_tokens parent'
        (if negb is_inline && negb is_anonymous then name :: tokens
         else tokens)
  | _ => tokens
  end.

(** A [namespace_] is kept as its list of tokens; [ns |= token] puts a
    token behind the others. *)
Definition get_tag_namespace (declaration : TagDecl) : list string :=
  fold_left (fun ns ns_token => ns ++ [ns_token])
    (namespace_tokens (nearest_namespace (parents_ declaration)) []) [].

(** The namespaces that enclose the nearest namespace directly, one in the
    other, from the inside. *)
Fixpoint namespace_run (parent : list parent_context)
    : list (string * bool * bool) :=
  match parent with
  | ParentNamespace name is_inline is_anonymous :: parent' =>
      (name, is_inline, is_anonymous) :: namespace_run parent'
  | _ => []
  end.

Definition visible_names (run : list (string * bool * bool)) : list string :=
  map (fun n => fst (fst n))
    (List.filter (fun n => negb (snd (fst n)) && negb (snd n)) run).

Lemma namespace_tokens_rev (parent : list parent_context) :
  forall tokens,
    namespace_tokens parent tokens
    = rev (visible_names (namespace_run parent)) ++ tokens.
Proof.
  induction parent as [|c parent IH]; intros tokens; [reflexivity|].
  destruct c as [name|name is_inline is_anonymous|]; try reflexivity.
  simpl. rewrite IH. unfold visible_names. simpl.
  destruct (negb is_inline && negb is_anonymous); simpl; [|reflexivity].
  now rewrite <- app_assoc.
Qed.

Lemma fold_left_push_back (tokens : list string) :
  forall ns, fold_left (fun ns tok => ns ++ [tok]) tokens ns = ns ++ tokens.
Proof.
  induction tokens as [|t tokens IH]; intros ns; simpl.
  - now rewrite app_nil_r.
  - rewrite IH. now rewrite <- app_assoc.
Qed.

(** X26: the namespace of a tag declaration is made of the names of the
    namespaces around its nearest enclosing namespace, the outermost first,
    without the inline and the anonymous ones; the records (and whatever
    else) the declaration is nested in below that namespace do not change
    it. *)
Theorem get_tag_namespace_outermost_first (declaration : TagDecl) :
  get_tag_namespace declaration
  = rev (visible_names
           (namespace_run (nearest_namespace (parents_ declaration))))
  /\ (forall inner,
        forallb (fun c => negb (isNamespaceContext c)) inner = true ->
        get_tag_namespace
          {| getNameAsString := getNameAsString declaration;
             getID := getID declaration;
             parents_ := inner ++ parents_ declaration |}
        = get_tag_namespace declaration).
Proof.
  split.
  - unfold get_tag_namespace.
    rewrite fold_left_push_back, namespace_tokens_rev.
    now rewrite app_nil_r.
  - intros inner Hinner. unfold get_tag_namespace. simpl. f_equal. f_equal.
    induction inner as [|c inner IH]; [reflexivity|].
    simpl in *. apply andb_prop in Hinner as [-> Hinner]. now apply IH.
Qed.

Section TagName.

#[local] Set Default Proof Using "Type".

(** [std::to_string] on the id of a declaration. *)
Variable to_string : Z -> string.

(** [fmt::join(names, separator)] *)
Fixpoint join (names : list string) (separator : string) : string :=
  match names with
  | [] => ""
  | [name] => name
  | name :: names' => name +:+ separator +:+ join names' separator
  end.

Definition base_name (declaration : TagDecl) : string :=
  if string_is_empty (getNameAsString declaration)
  then "(anonymous_" +:+ to_string (getID declaration) +:+ ")"
  else getNameAsString declaration.

(** The loop over the record parents: their names are pushed to the front
    of the deque. *)
Fixpoint record_parent_names (cls_parent : list parent_context)
    (names : list string) : list string :=
  match cls_parent with
  | ParentRecord name :: cls_parent' =>
      record_parent_names cls_parent' (name :: names)
  | _ => names
  end.

Definition get_tag_name (declaration : TagDecl) : string :=
  match parents_ declaration with
  | ParentRecord _ :: _ =>
      join (record_parent_names (parents_ declaration)
              [base_name declaration])
        "##"
  | _ => base_name declaration
  end.

(** The names that make up the name of a tag: those of the records it is
    nested in, the outermost first, and its own. *)
Definition name_components (declaration : TagDecl) : list string :=
  record_parent_names (parents_ declaration) [base_name declaration].

Definition no_hash (s : string) : bool :=
  string_forallb (fun c => negb (Ascii.eqb c "#")) s.

Lemma get_tag_name_join (declaration : TagDecl) :
  get_tag_name declaration = join (name_components declaration) "##".
Proof.
  unfold get_tag_name, name_components.
  destruct (parents_ declaration) as [|[name|name i a|] ps]; reflexivity.
Qed.

Lemma record_parent_names_nonempty (cls_parent : list parent_context) :
  forall names, names <> [] -> record_parent_names cls_parent names <> [].
Proof.
  induction cls_parent as [|[name|name i a|] ps IH]; intros names Hn;
    simpl; try exact Hn.
  apply IH. discriminate.
Qed.

Lemma join_cons (name : string) (names : list string) (separator : string) :
  names <> [] ->
  join (name :: names) separator = name +:+ separator +:+ join names separator.
Proof. destruct names; [congruence | reflexivity]. Qed.

(** A name without [#] in front of a separator is read back as it is. *)
Lemma append_nil_l (s : string) : "" +:+ s = s.
Proof. reflexivity. Qed.

Lemma no_hash_prefix (x y r r' : string) :
  no_hash x = true -> no_hash y = true ->
  x +:+ String "#" r = y +:+ String "#" r' -> x = y /\ r = r'.
Proof.
  unfold no_hash. revert y.
  induction x as [|c x IH]; intros y Hx Hy; destruct y as [|d y];
    rewrite ?append_nil_l, ?append_cons.
  - now intros [= ->].
  - simpl in Hy. apply andb_prop in Hy as [Hd _].
    intros [= <- _]. discriminate Hd.
  - simpl in Hx. apply andb_prop in Hx as [Hc _].
    intros [= -> _]. discriminate Hc.
  - simpl in Hx, Hy. apply andb_prop in Hx as [_ Hx].
    apply andb_prop in Hy as [_ Hy].
    intros [= -> H].
    destruct (IH y Hx Hy H) as [-> ->]. now split.
Qed.

Lemma no_hash_whole (x y r : string) :
  no_hash x = true -> x <> y +:+ String "#" r.
Proof.
  unfold no_hash. revert y.
  induction x as [|c x IH]; intros y Hx H.
  - destruct y; rewrite ?append_nil_l, ?append_cons in H; discriminate H.
  - simpl in Hx. apply andb_prop in Hx as [Hc Hx].
    destruct y as [|d y]; rewrite ?append_nil_l, ?append_cons in H.
    + injection H as -> _. discriminate Hc.
    + injection H as _ H. now apply (IH y).
Qed.

Lemma hashes_cons (s : string) : "##" +:+ s = String "#" (String "#" s).
Proof. reflexivity. Qed.

Lemma join_injective (l1 : list string) :
  forall l2,
    l1 <> [] -> l2 <> [] ->
    forallb no_hash l1 = true -> forallb no_hash l2 = true ->
    join l1 "##" = join l2 "##" -> l1 = l2.
Proof.
  induction l1 as [|x l1 IH]; intros l2 Hn1 Hn2 H1 H2; [congruence|].
  destruct l2 as [|y l2]; [congruence|].
  simpl in H1, H2. apply andb_prop in H1 as [Hx H1].
  apply andb_prop in H2 as [Hy H2].
  destruct l1 as [|x' l1]; destruct l2 as [|y' l2].
  - simpl. now intros ->.
  - rewrite (join_cons y) by discriminate. rewrite hashes_cons.
    change (join [x] "##") with x.
    intros H. exfalso. exact (no_hash_whole x y _ Hx H).
  - rewrite (join_cons x) by discriminate. rewrite hashes_cons.
    change (join [y] "##") with y.
    intros H. exfalso. symmetry in H. exact (no_hash_whole y x _ Hy H).
  - rewrite (join_cons x), (join_cons y) by discriminate.
    rewrite !hashes_cons. intros H.
    destruct (no_hash_prefix _ _ _ _ Hx Hy H) as [-> Hrest].
    injection Hrest as Hrest.
    f_equal. apply IH; try discriminate; assumption.
Qed.

(** X27: the name of a nested tag keeps the tags apart: as long as none of
    the names involved holds a [#], two declarations have the same tag name
    only if they have the same name and are nested in records of the same
    names, in the same order. *)
Theorem get_tag_name_unique (d1 d2 : TagDecl) :
  forallb no_hash (name_components d1) = true ->
  forallb no_hash (name_components d2) = true ->
  get_tag_name d1 = get_tag_name d2 ->
  name_components d1 = name_components d2.
Proof.
  intros H1 H2. rewrite !get_tag_name_join.
  apply join_injective; try assumption;
    apply record_parent_names_nonempty; discriminate.
Qed.

End TagName.

(** ** Part X. The further theorems at concrete inputs *)

(** The two namespaces, the first one declared again, and the record. *)
Definition tu_A_B_A : list TopLevelDecl :=
  [NamespaceD ns_A; NamespaceD ns_B; NamespaceD ns_A; CXXRecordD cls_in_A].

(** The two packages before the record is visited. *)
Definition packages_A_B_before : list package :=
  [ {| package_name := "clanguml::A"; package_id := 1810004612254002273;
       package_deprecated := false; relationships_ := [] |};
    {| package_name := "clanguml::B"; package_id := 1810004749692955800;
       package_deprecated := false; relationships_ := [] |} ].

Lemma traverse_tu_A_B_A :
  traverse fnv1a include_all append_relationship include_all_packages
    tu_A_B_A []
  = Done packages_A_B.
Proof. vm_compute. reflexivity. Qed.

(** The visit of the record keeps the two packages. *)
Lemma visits_keep_the_packages_witness :
  (forall r p,
     package_id (append_relationship r p) = package_id p
     /\ (forall r', In r' (relationships_ (append_relationship r p)) ->
                    r' = r \/ In r' (relationships_ p)))
  /\ VisitCXXRecordDecl fnv1a include_all append_relationship cls_in_A
       packages_A_B_before
     = Done packages_A_B
  /\ package_ids packages_A_B = package_ids packages_A_B_before.
Proof.
  assert (Hv : VisitCXXRecordDecl fnv1a include_all append_relationship
                 cls_in_A packages_A_B_before
               = Done packages_A_B) by (vm_compute; reflexivity).
  split; [exact append_relationship_adds|]. split; [exact Hv|].
  exact (proj2 (visits_keep_the_packages fnv1a include_all append_relationship
                  append_relationship_adds packages_A_B_before packages_A_B)
           cls_in_A Hv).
Defined.

(** The namespace declared twice gives one package. *)
Lemma traverse_unique_ids_witness :
  (forall r p,
     package_id (append_relationship r p) = package_id p
     /\ (forall r', In r' (relationships_ (append_relationship r p)) ->
                    r' = r \/ In r' (relationships_ p)))
  /\ traverse fnv1a include_all append_relationship include_all_packages
       tu_A_B_A []
     = Done packages_A_B
  /\ List.NoDup (package_ids packages_A_B).
Proof.
  split; [exact append_relationship_adds|].
  split; [exact traverse_tu_A_B_A|].
  exact (traverse_unique_ids fnv1a include_all append_relationship
           append_relationship_adds include_all_packages tu_A_B_A
           packages_A_B traverse_tu_A_B_A).
Defined.

Lemma traverse_packages_are_namespaces_witness :
  (forall r p,
     package_id (append_relationship r p) = package_id p
     /\ (forall r', In r' (relationships_ (append_relationship r p)) ->
                    r' = r \/ In r' (relationships_ p)))
  /\ traverse fnv1a include_all append_relationship include_all_packages
       tu_A_B_A []
     = Done packages_A_B
  /\ Forall (from_namespace_of fnv1a tu_A_B_A) (package_ids packages_A_B).
Proof.
  split; [exact append_relationship_adds|].
  split; [exact traverse_tu_A_B_A|].
  exact (traverse_packages_are_namespaces fnv1a include_all
           append_relationship append_relationship_adds include_all_packages
           tu_A_B_A packages_A_B traverse_tu_A_B_A).
Defined.

(** The pointer into the second package was found as an association and is
    held as a dependency. *)
Lemma traverse_only_dependencies_witness :
  (forall r p,
     package_id (append_relationship r p) = package_id p
     /\ (forall r', In r' (relationships_ (append_relationship r p)) ->
                    r' = r \/ In r' (relationships_ p)))
  /\ only_dependencies []
  /\ traverse fnv1a include_all append_relationship include_all_packages
       tu_A_B_A []
     = Done packages_A_B
  /\ found_in fnv1a include_all (PointerType (record_in ns_B)) kDependency
     = [(1810004749692955800, kAssociation)]
  /\ only_dependencies packages_A_B.
Proof.
  assert (H0 : only_dependencies []) by constructor.
  split; [exact append_relationship_adds|]. split; [exact H0|].
  split; [exact traverse_tu_A_B_A|]. split; [vm_compute; reflexivity|].
  exact (traverse_only_dependencies fnv1a include_all append_relationship
           append_relationship_adds include_all_packages tu_A_B_A []
           packages_A_B H0 traverse_tu_A_B_A).
Defined.

Lemma tokens_are_well_formed_witness :
  tokenize_unexposed_template_parameter "std::map<K*, V[3]>..."
  = Some ["std"; "::map<K"; "*"; ","; "V"; "["; "3"; "]"; ">"; "..."]
  /\ Forall token_ok
       ["std"; "::map<K"; "*"; ","; "V"; "["; "3"; "]"; ">"; "..."].
Proof.
  assert (H : tokenize_unexposed_template_parameter "std::map<K*, V[3]>..."
              = Some ["std"; "::map<K"; "*"; ","; "V"; "["; "3"; "]"; ">";
                      "..."]) by reflexivity.
  split; [exact H|].
  exact (tokens_are_well_formed _ _ H).
Defined.

Definition same_name : string -> string := fun s => s.
Definition same_parameter : template_parameter -> template_parameter :=
  fun t => t.

(** A list with an empty argument in the middle and a comma at its end. *)
Lemma parse_flat_list_witness :
  no_angle " int,,std::string," = true
  /\ parse_unexposed_template_params same_name same_name same_parameter
       " int,,std::string," 1
     = Some [unexposed_argument "int" []; unexposed_argument "" [];
             unexposed_argument "std::string" []].
Proof.
  assert (H : no_angle " int,,std::string," = true) by reflexivity.
  split; [exact H|].
  exact (parse_flat_list same_name same_name same_parameter
           " int,,std::string," 1 H).
Defined.

Lemma parse_skips_leading_spaces_witness :
  string_forallb isspace "  " = true
  /\ parse_unexposed_template_params same_name same_name same_parameter
       ("  " +:+ "A<B>") 0
     = parse_unexposed_template_params same_name same_name same_parameter
         "A<B>" 0.
Proof.
  assert (H : string_forallb isspace "  " = true) by reflexivity.
  split; [exact H|].
  exact (parse_skips_leading_spaces same_name same_name same_parameter
           "  " "A<B>" 0 H).
Defined.

(** A template with two arguments and text behind its closing bracket, and
    a template with empty brackets. *)
Lemma parse_one_level_witness :
  "std::vector" <> "" /\ ltrim "std::vector" = "std::vector"
  /\ plain "std::vector" = true /\ no_angle "int,alloc" = true
  /\ parse_unexposed_template_params same_name same_name same_parameter
       "std::vector<int,alloc>::iterator" 0
     = Some [unexposed_argument "std::vector"
               [unexposed_argument "int" []; unexposed_argument "alloc" []]].
Proof.
  assert (H1 : "std::vector" <> "") by discriminate.
  assert (H2 : ltrim "std::vector" = "std::vector") by reflexivity.
  assert (H3 : plain "std::vector" = true) by reflexivity.
  assert (H4 : no_angle "int,alloc" = true) by reflexivity.
  repeat (split; [assumption|]).
  exact (parse_one_level same_name same_name same_parameter
           "std::vector" "int,alloc" "::iterator" H1 H2 H3 H4).
Defined.

Lemma parse_stops_at_closing_bracket_witness :
  no_angle "int,T" = true
  /\ parse_unexposed_template_params same_name same_name same_parameter
       ("int,T" +:+ String ">" ",U") 0
     = parse_unexposed_template_params same_name same_name same_parameter
         "int,T" 0.
Proof.
  assert (H : no_angle "int,T" = true) by reflexivity.
  split; [exact H|].
  exact (parse_stops_at_closing_bracket same_name same_name same_parameter
           "int,T" ",U" H).
Defined.

(** A function that calls itself. *)
Definition recursive_message : message :=
  {| from := "f()"; to := "f()"; to_usr := "c:@F@f#"; message_name := "f";
     return_type := "void" |}.

Definition recursive_activity : activity :=
  {| messages := [recursive_message] |}.

Definition recursive_sequences : gmap string activity :=
  {[ "c:@F@f#" := recursive_activity ]}.

Lemma generate_activity_recursive_call_witness :
  recursive_sequences !! "c:@F@f#" = Some recursive_activity
  /\ In recursive_message (messages recursive_activity)
  /\ to_usr recursive_message = "c:@F@f#"
  /\ forall fuel ostr,
       generate_activity ns_relative_id (plain_config []) fuel
         recursive_sequences recursive_activity ostr
       = None.
Proof.
  assert (H1 : recursive_sequences !! "c:@F@f#" = Some recursive_activity)
    by reflexivity.
  assert (H2 : In recursive_message (messages recursive_activity))
    by (simpl; auto).
  assert (H3 : to_usr recursive_message = "c:@F@f#") by reflexivity.
  repeat (split; [assumption|]).
  exact (generate_activity_recursive_call ns_relative_id (plain_config [])
           recursive_sequences "c:@F@f#" recursive_activity
           recursive_message H1 H2 H3).
Defined.

(** The activity of [tmain()] in a model that holds no activity of
    [A::a()]. *)
Definition tmain_activity : activity :=
  {| messages :=
       [ {| from := "tmain()"; to := "A"; to_usr := "A::a()";
            message_name := "a"; return_type := "int" |} ] |}.

Lemma generate_activity_leaf_witness :
  (forall m, In m (messages tmain_activity) ->
             tmain_sequences !! to_usr m = None)
  /\ generate_activity ns_relative_id (plain_config []) 1 tmain_sequences
       tmain_activity ""
     = Some ("" +:+ concat_strings
                      (map (leaf_block ns_relative_id (plain_config []))
                         (messages tmain_activity))).
Proof.
  assert (H : forall m, In m (messages tmain_activity) ->
                        tmain_sequences !! to_usr m = None).
  { intros m [<-|[]]. reflexivity. }
  split; [exact H|].
  exact (generate_activity_leaf ns_relative_id (plain_config [])
           tmain_sequences tmain_activity 0 "" H).
Defined.

(** An entry point that the model does not hold. *)
Lemma generate_keeps_the_model_witness :
  generate ns_relative_id (plain_config [usr "c:@F@main#"]) 4
    tmain_sequences ""
  = Some (empty_diagram,
          <["c:@F@main#" := {| messages := [] |}]> tmain_sequences)
  /\ (forall key,
        (<["c:@F@main#" := {| messages := [] |}]> tmain_sequences) !! key
        = model_after [usr "c:@F@main#"] tmain_sequences key).
Proof.
  assert (H : generate ns_relative_id (plain_config [usr "c:@F@main#"]) 4
                tmain_sequences ""
              = Some (empty_diagram,
                      <["c:@F@main#" := {| messages := [] |}]>
                        tmain_sequences))
    by (vm_compute; reflexivity).
  split; [exact H|].
  exact (generate_keeps_the_model ns_relative_id
           (plain_config [usr "c:@F@main#"]) 4 tmain_sequences _ "" _ H).
Defined.

Lemma user_data_is_found_witness :
  add_custom_user_data ([("a.b", "1")] ++ [("c", "2")]) Jnull
  = Returned kContinue
      (Jobject [("a", Jobject [("b", Jstring "1")]); ("c", Jstring "2")])
  /\ get_path (split "c" ".")
       (Jobject [("a", Jobject [("b", Jstring "1")]); ("c", Jstring "2")])
     = Some (Jstring "2").
Proof.
  assert (H : add_custom_user_data ([("a.b", "1")] ++ [("c", "2")]) Jnull
              = Returned kContinue
                  (Jobject [("a", Jobject [("b", Jstring "1")]);
                            ("c", Jstring "2")])) by reflexivity.
  split; [exact H|].
  exact (user_data_is_found [("a.b", "1")] "c" "2" Jnull _ H).
Defined.

(** The second entry asks for a key under a string and fails; the third is
    not applied. *)
Lemma failing_entry_changes_nothing_witness :
  add_custom_user_data [("a.b", "1"); ("a.b.c", "2"); ("d", "3")] Jnull
  = Returned kError (Jobject [("a", Jobject [("b", Jstring "1")])])
  /\ exists applied failing ignored,
       [("a.b", "1"); ("a.b.c", "2"); ("d", "3")]
       = applied ++ failing :: ignored
       /\ add_custom_user_data applied Jnull
          = Returned kContinue (Jobject [("a", Jobject [("b", Jstring "1")])])
       /\ add_custom_user_data [failing]
            (Jobject [("a", Jobject [("b", Jstring "1")])])
          = add_custom_user_data [("a.b", "1"); ("a.b.c", "2"); ("d", "3")]
              Jnull.
Proof.
  assert (H : add_custom_user_data
                [("a.b", "1"); ("a.b.c", "2"); ("d", "3")] Jnull
              = Returned kError (Jobject [("a", Jobject [("b", Jstring "1")])]))
    by reflexivity.
  split; [exact H|].
  exact (failing_entry_changes_nothing _ Jnull _ (or_introl H)).
Defined.

Lemma user_data_elsewhere_untouched_witness :
  add_custom_user_data [("a.c", "2")]
    (Jobject [("a", Jobject [("b", Jstring "1")])])
  = Returned kContinue
      (Jobject [("a", Jobject [("b", Jstring "1"); ("c", Jstring "2")])])
  /\ diverges (split "a.c" ".") ["a"; "b"] = true
  /\ get_path ["a"; "b"]
       (Jobject [("a", Jobject [("b", Jstring "1"); ("c", Jstring "2")])])
     = get_path ["a"; "b"] (Jobject [("a", Jobject [("b", Jstring "1")])]).
Proof.
  assert (H : add_custom_user_data [("a.c", "2")]
                (Jobject [("a", Jobject [("b", Jstring "1")])])
              = Returned kContinue
                  (Jobject [("a", Jobject [("b", Jstring "1");
                                           ("c", Jstring "2")])]))
    by reflexivity.
  assert (Hd : diverges (split "a.c" ".") ["a"; "b"] = true) by reflexivity.
  split; [exact H|]. split; [exact Hd|].
  exact (user_data_elsewhere_untouched "a.c" "2" ["a"; "b"] _ _ H Hd).
Defined.

(** Two declarations of a nested struct [A::AA], in different files. *)
Definition decimal_stub : Z -> string := fun _ => "0".

Definition nested_AA (id : Z) (outer : parent_context) : TagDecl :=
  {| getNameAsString := "AA"; getID := id;
     parents_ := [ParentRecord "A"; outer] |}.

Lemma get_tag_name_unique_witness :
  forallb no_hash
    (name_components decimal_stub
       (nested_AA 1 (ParentNamespace "ns" false false))) = true
  /\ forallb no_hash (name_components decimal_stub (nested_AA 2 ParentOther))
     = true
  /\ get_tag_name decimal_stub
       (nested_AA 1 (ParentNamespace "ns" false false))
     = "A##AA"
  /\ get_tag_name decimal_stub (nested_AA 2 ParentOther) = "A##AA"
  /\ name_components decimal_stub
       (nested_AA 1 (ParentNamespace "ns" false false))
     = name_components decimal_stub (nested_AA 2 ParentOther).
Proof.
  repeat (split; [reflexivity|]).
  apply (get_tag_name_unique decimal_stub); reflexivity.
Defined.
